(** * Expense sharing: name deduplication, fair shares and settlements

    A shallow embedding of [backend.py].

    - Python [str] values are lists of [ascii] characters, read as ASCII
      text: whitespace, digits and case folding are the ASCII ones.
    - Python [float] values are embedded twice.  The first embedding
      takes them for rationals [Q] with exact arithmetic: comparisons of
      the source ([<], [>], [==]) are the rational ones and [round(x, 2)]
      rounds the exact value, ties to even.  It carries the properties of
      the algorithm, each of them a statement about exact arithmetic.
      The second embedding, module [Binary64], runs the same code on
      IEEE 754 binary64 values with every operation rounded as the
      interpreter rounds it; the last part of the file is about it and
      shows where the two part ways.
    - A [dict] is an association list that keeps Python's insertion
      order: assigning an existing key replaces the value in place,
      assigning a new key appends.
    - Exceptions are results of type [outcome]; the [while] loop of the
      solver runs on fuel and running out of it is an outcome of its own,
      shown below never to occur. *)

From Stdlib Require Import String Ascii List NArith ZArith QArith Qround Qabs Lia Lqa Bool.
From Stdlib Require Import Permutation Sorted.
From Stdlib Require DecimalPos DecimalN.
From Stdlib Require Import SpecFloat.
From stdpp Require Import base tactics option list relations strings.

Import ListNotations.
Local Open Scope char_scope.
Local Open Scope list_scope.

(** ** Python strings *)

Definition str : Type := list ascii.

Definition py (s : String.string) : str := String.list_ascii_of_string s.
Arguments py s%_string.

Definition code (c : ascii) : N := N_of_ascii c.

(** [str.isspace] on one ASCII character: TAB, LF, VT, FF, CR, the four
    separators 0x1c..0x1f and the space. *)
Definition is_space (c : ascii) : bool :=
  let n := code c in
  ((9 <=? n) && (n <=? 13) || (28 <=? n) && (n <=? 32))%N.

(** [\d] on ASCII text. *)
Definition is_digit (c : ascii) : bool :=
  let n := code c in ((48 <=? n) && (n <=? 57))%N.

(** Case folding of [re.IGNORECASE] on one ASCII character. *)
Definition lower (c : ascii) : ascii :=
  let n := code c in
  if ((65 <=? n) && (n <=? 90))%N then ascii_of_N (n + 32) else c.

Definition ci_eqb (a b : ascii) : bool := Ascii.eqb (lower a) (lower b).

Fixpoint lstrip (s : str) : str :=
  match s with
  | [] => []
  | c :: s' => if is_space c then lstrip s' else s
  end.

Definition rstrip (s : str) : str := rev (lstrip (rev s)).

(** [s.strip()] *)
Definition strip (s : str) : str := rstrip (lstrip s).

(** [int(ds)] on a string of decimal digits (leading zeros allowed). *)
Definition int (ds : str) : N :=
  fold_left (fun acc c => (10 * acc + (code c - 48))%N) ds 0%N.

Fixpoint chars_of_uint (d : Decimal.uint) : str :=
  match d with
  | Decimal.Nil => []
  | Decimal.D0 d => "0" :: chars_of_uint d
  | Decimal.D1 d => "1" :: chars_of_uint d
  | Decimal.D2 d => "2" :: chars_of_uint d
  | Decimal.D3 d => "3" :: chars_of_uint d
  | Decimal.D4 d => "4" :: chars_of_uint d
  | Decimal.D5 d => "5" :: chars_of_uint d
  | Decimal.D6 d => "6" :: chars_of_uint d
  | Decimal.D7 d => "7" :: chars_of_uint d
  | Decimal.D8 d => "8" :: chars_of_uint d
  | Decimal.D9 d => "9" :: chars_of_uint d
  end.

(** [str(n)] for a non-negative integer: decimal, no leading zero. *)
Definition str_of_int (n : N) : str := chars_of_uint (N.to_uint n).

(** ** The two regular expressions of [generate_unique_name] *)

(** [$] without [re.MULTILINE]: the end of the string, or just before a
    newline that ends the string. *)
Definition at_dollar (s : str) : bool :=
  match s with
  | [] => true
  | [c] => Ascii.eqb c "010"
  | _ => false
  end.

(** Greedy [\d*]: the longest run of digits and what follows it. *)
Fixpoint span_digits (s : str) : str * str :=
  match s with
  | c :: s' =>
      if is_digit c then let '(ds, r) := span_digits s' in (c :: ds, r)
      else ([], s)
  | [] => ([], [])
  end.

(** The group [ \((\d+)\)] at the start of [s]: the digits captured and
    the rest of the string.  The run of digits is taken whole: a shorter
    run would have to be followed by [")"], and it is followed by a digit. *)
Definition suffix_group (s : str) : option (str * str) :=
  match s with
  | sp :: op :: s1 =>
      if Ascii.eqb sp " " && Ascii.eqb op "(" then
        match span_digits s1 with
        | (d :: ds, cl :: r) => if Ascii.eqb cl ")" then Some (d :: ds, r) else None
        | _ => None
        end
      else None
  | _ => None
  end.

(** The tail [(?: \((\d+)\))?$] shared by both patterns, tried at the
    start of [s].  The optional group is greedy: it is tried first, and
    skipped when the match cannot be completed with it.  [Some g] is a
    match, [g] the digits captured by the group, if it took part. *)
Definition match_tail (s : str) : option (option str) :=
  match suffix_group s with
  | Some (ds, r) =>
      if at_dollar r then Some (Some ds)
      else if at_dollar s then Some None else None
  | None => if at_dollar s then Some None else None
  end.

(** [re.match(r"^(.*?)(?: \((\d+)\))?$", s)]: the lazy [.*?] takes as few
    characters as it can, one more on each failure, and [.] refuses a
    newline.  The result is groups 1 and 2. *)
Fixpoint name_match (s : str) : option (str * option str) :=
  match match_tail s with
  | Some g => Some ([], g)
  | None =>
      match s with
      | [] => None
      | c :: s' =>
          if Ascii.eqb c "010" then None
          else match name_match s' with
               | Some (b, g) => Some (c :: b, g)
               | None => None
               end
      end
  end.

(** The literal [re.escape(base_name)] under [re.IGNORECASE], at the start
    of [s]: what is left of [s] after it. *)
Fixpoint match_literal (base s : str) : option str :=
  match base, s with
  | [], _ => Some s
  | b :: base', c :: s' => if ci_eqb b c then match_literal base' s' else None
  | _ :: _, [] => None
  end.

(** [pattern.match(s)] for
    [pattern = re.compile(rf"^{re.escape(base_name)}(?: \((\d+)\))?$", re.IGNORECASE)]:
    [Some g] is a match with group 1 equal to [g]. *)
Definition pattern_match (base_name s : str) : option (option str) :=
  match match_literal base_name s with
  | Some r => match_tail r
  | None => None
  end.

(** ** [generate_unique_name] *)

Definition base_name_of (name : str) : str :=
  let name := strip name in
  match name_match name with
  | Some (g1, _) => strip g1
  | None => name
  end.

(** One turn of the [for existing in existing_names] loop. *)
Definition scan_step (base_name : str) (max_suffix : N) (existing : str) : N :=
  let existing := strip existing in
  match pattern_match base_name existing with
  | Some (Some ((_ :: _) as g)) => N.max max_suffix (int g + 1)
  | Some _ => N.max max_suffix 2
  | None => max_suffix
  end.

Definition scan (base_name : str) (existing_names : list str) : N :=
  fold_left (scan_step base_name) existing_names 1%N.

Definition generate_unique_name (name : str) (existing_names : list str) : str :=
  let base_name := base_name_of name in
  let max_suffix := scan base_name existing_names in
  if (max_suffix =? 1)%N then base_name
  else base_name ++ py " (" ++ str_of_int max_suffix ++ py ")".

(** ** Python numbers, exceptions, dicts and [sorted] *)

Local Open Scope Q_scope.

Inductive exn : Set := ZeroDivisionError | KeyError | IndexError.

Inductive outcome (A : Type) : Type :=
| Ok (a : A)
| Raise (e : exn)
| OutOfFuel.
Arguments Ok {A} a.
Arguments Raise {A} e.
Arguments OutOfFuel {A}.

#[global] Instance outcome_bind : MBind outcome := fun A B k m =>
  match m with
  | Ok a => k a
  | Raise e => Raise e
  | OutOfFuel => OutOfFuel
  end.

Definition Qltb (a b : Q) : bool :=
  match Qcompare a b with Lt => true | _ => false end.

(** [x / y] on floats raises on a zero divisor. *)
Definition div (x y : Q) : outcome Q :=
  if Qeq_bool y 0 then Raise ZeroDivisionError else Ok (x / y).

(** [min(a, b)]: the first argument unless the second is smaller. *)
Definition min (a b : Q) : Q := if Qltb b a then b else a.

(** [sum(xs)]: left to right from 0. *)
Definition sum (xs : list Q) : Q := fold_left Qplus xs 0.

(** Nearest integer, ties to the even one. *)
Definition round_half_even (x : Q) : Z :=
  let f := Qfloor x in
  match Qcompare (x - inject_Z f) (1 # 2) with
  | Lt => f
  | Gt => (f + 1)%Z
  | Eq => if Z.even f then f else (f + 1)%Z
  end.

(** [round(x, 2)] *)
Definition round2 (x : Q) : Q := inject_Z (round_half_even (x * 100)) / 100.

Abbreviation dict V := (list (str * V)) (only parsing).

(** [d[k] = v] *)
Fixpoint dict_set {V : Type} (k : str) (v : V) (d : dict V) : dict V :=
  match d with
  | [] => [(k, v)]
  | (k', v') :: d' =>
      if decide (k' = k) then (k', v) :: d' else (k', v') :: dict_set k v d'
  end.

(** [d[k]] *)
Fixpoint dict_get {V : Type} (k : str) (d : dict V) : outcome V :=
  match d with
  | [] => Raise KeyError
  | (k', v') :: d' => if decide (k' = k) then Ok v' else dict_get k d'
  end.

(** [l[i]] *)
Definition index {A : Type} (l : list A) (i : nat) : outcome A :=
  match l !! i with
  | Some x => Ok x
  | None => Raise IndexError
  end.

(** [sorted(l, key=lambda x: x[1])]: the stable sort, by insertion from
    the right, each element going before the first one that is not smaller. *)
Fixpoint insert_by_snd (x : str * Q) (l : list (str * Q)) : list (str * Q) :=
  match l with
  | [] => [x]
  | y :: l' => if Qle_bool (snd x) (snd y) then x :: l else y :: insert_by_snd x l'
  end.

Fixpoint sorted_by_snd (l : list (str * Q)) : list (str * Q) :=
  match l with
  | [] => []
  | x :: l' => insert_by_snd x (sorted_by_snd l')
  end.

(** ** The data model *)

Record Participant : Type := {
  name : str;
  amount_spent : Q;
  weight : Q;
  note : str
}.

Record FairShareRow : Type := {
  Name : str;
  Weight : Q;
  Fair_Share : Q
}.

Record Transaction : Type := {
  From : str;
  To : str;
  Amount : Q
}.

Definition total_weight (participants : list Participant) : Q :=
  sum (map weight participants).

Definition total_spendings (participants : list Participant) : Q :=
  sum (map amount_spent participants).

(** ** [compute_fair_shares] *)

Definition normalised_share (participants : list Participant) : Q :=
  if Qltb 0 (total_weight participants)
  then total_spendings participants / total_weight participants
  else 0.

Definition compute_fair_shares (participants : list Participant)
  : Q * Q * list FairShareRow :=
  let normalised_share := normalised_share participants in
  let fair_shares :=
    map (fun p => {| Name := name p;
                     Weight := weight p;
                     Fair_Share := round2 (normalised_share * weight p) |})
        participants in
  (total_spendings participants, normalised_share, fair_shares).

(** ** [compute_settlements] *)

(** [{p.name: total_spendings * p.weight / total_weight for p in participants}],
    continuing from the dict [d] built so far. *)
Fixpoint fair_shares_from (ts tw : Q) (participants : list Participant)
  (d : dict Q) : outcome (dict Q) :=
  match participants with
  | [] => Ok d
  | p :: rest =>
      x ← div (ts * weight p) tw;
      fair_shares_from ts tw rest (dict_set (name p) x d)
  end.

(** [{p.name: p.amount_spent - fair_shares[p.name] for p in participants}] *)
Fixpoint balances_from (fair_shares : dict Q) (participants : list Participant)
  (d : dict Q) : outcome (dict Q) :=
  match participants with
  | [] => Ok d
  | p :: rest =>
      fs ← dict_get (name p) fair_shares;
      balances_from fair_shares rest (dict_set (name p) (amount_spent p - fs) d)
  end.

Definition debtors_of (balances : dict Q) : list (str * Q) :=
  sorted_by_snd
    (map (fun nb => (fst nb, - snd nb)) (filter (fun nb => Qltb (snd nb) 0) balances)).

Definition creditors_of (balances : dict Q) : list (str * Q) :=
  sorted_by_snd (filter (fun nb => Qltb 0 (snd nb)) balances).

(** The variables of the greedy loop. *)
Record walk : Type := {
  debtors : list (str * Q);
  creditors : list (str * Q);
  i : nat;
  j : nat;
  transactions : list Transaction
}.

(** [i < len(debtors) and j < len(creditors)] *)
Definition walk_cond (w : walk) : bool :=
  (i w <? length (debtors w))%nat && (j w <? length (creditors w))%nat.

(** The body of the [while] loop. *)
Definition walk_body (w : walk) : outcome walk :=
  '(debtor, debt) ← index (debtors w) (i w);
  '(creditor, credit) ← index (creditors w) (j w);
  let amount := min debt credit in
  let transactions :=
    transactions w ++ [{| From := debtor; To := creditor; Amount := round2 amount |}] in
  let debtors := <[i w := (debtor, debt - amount)]> (debtors w) in
  let creditors := <[j w := (creditor, credit - amount)]> (creditors w) in
  di ← index debtors (i w);
  let i' := if Qeq_bool (snd di) 0 then S (i w) else i w in
  cj ← index creditors (j w);
  let j' := if Qeq_bool (snd cj) 0 then S (j w) else j w in
  Ok {| debtors := debtors; creditors := creditors; i := i'; j := j';
        transactions := transactions |}.

Fixpoint while_walk (fuel : nat) (w : walk) : outcome walk :=
  if walk_cond w then
    match fuel with
    | O => OutOfFuel
    | S fuel' => w' ← walk_body w; while_walk fuel' w'
    end
  else Ok w.

Definition balances_of (participants : list Participant) : outcome (dict Q) :=
  let total_weight := total_weight participants in
  let total_spendings := total_spendings participants in
  fair_shares ← fair_shares_from total_spendings total_weight participants [];
  balances_from fair_shares participants [].

Definition settle (balances : dict Q) : outcome (list Transaction) :=
  let debtors := debtors_of balances in
  let creditors := creditors_of balances in
  w ← while_walk (length debtors + length creditors)
        {| debtors := debtors; creditors := creditors; i := 0; j := 0;
           transactions := [] |};
  Ok (transactions w).

Definition compute_settlements (participants : list Participant)
  : outcome (list Transaction) :=
  balances ← balances_of participants;
  settle balances.

(** Results are compared after reducing the rationals in them. *)
Definition reduced (t : Transaction) : Transaction :=
  {| From := From t; To := To t; Amount := Qred (Amount t) |}.

Definition person (n : string) (spent w : Q) : Participant :=
  {| name := py n; amount_spent := spent; weight := w; note := [] |}.

Definition settlements_reduced (participants : list Participant)
  : outcome (list Transaction) :=
  txs ← compute_settlements participants; Ok (map reduced txs).

(** ** Notions the properties are stated with *)

Definition is_letter (c : ascii) : bool :=
  let n := code c in
  ((65 <=? n) && (n <=? 90) || (97 <=? n) && (n <=? 122))%N.

(** A string [$] takes for ended although a newline is left. *)
Definition final_newline (s : str) : Prop := last s = Some "010".

(** No leading and no trailing whitespace. *)
Definition trimmed (s : str) : Prop := strip s = s.

(** Names compared up to case and surrounding whitespace. *)
Definition fold_case (s : str) : str := map lower s.

Definition collides (a b : str) : Prop :=
  fold_case (strip a) = fold_case (strip b).

(** A non-empty string of decimal digits. *)
Definition digits (ds : str) : Prop := ds <> [] /\ forallb is_digit ds = true.

(** [base] followed by [" (ds)"]. *)
Definition with_suffix (base ds : str) : str := base ++ py " (" ++ ds ++ py ")".

(** The slot a name of the existing list occupies for [base]: slot 1 when
    it is [base] itself, slot [k] when it is [base] with the suffix [(k)]. *)
Inductive occupies (base existing : str) : N -> Prop :=
| occupies_plain :
    fold_case (strip existing) = fold_case base -> occupies base existing 1
| occupies_suffixed ds :
    digits ds ->
    fold_case (strip existing) = fold_case (with_suffix base ds) ->
    occupies base existing (int ds).

(** Whether a name ends with a suffix [" (k)"]: the group of the patterns
    matches from some position to the end. *)
Definition ends_with_suffix (s : str) : bool :=
  existsb (fun k => match suffix_group (drop k s) with
                    | Some (_, []) => true
                    | _ => false
                    end)
          (seq 0 (length s)).

Definition unsuffixed (s : str) : Prop := ends_with_suffix s = false.

(** The name number [k] of a base: the base itself, then [base (2)], ... *)
Definition numbered (base : str) (k : nat) : str :=
  match k with
  | 1%nat => base
  | _ => with_suffix base (str_of_int (N.of_nat k))
  end.

(** [n] calls with the same name, each against the list of the names
    returned so far; the list after the last call. *)
Fixpoint register_again (n : nat) (name : str) (existing : list str) : list str :=
  match n with
  | O => existing
  | S n' => register_again n' name (existing ++ [generate_unique_name name existing])
  end.

(** The share and balance of lines 71 and 72, for one record of the list. *)
Definition exact_fair_share (participants : list Participant) (p : Participant) : Q :=
  total_spendings participants * weight p / total_weight participants.

Definition exact_balance (participants : list Participant) (p : Participant) : Q :=
  amount_spent p - exact_fair_share participants p.

Definition sent_by (n : str) (txs : list Transaction) : list Transaction :=
  filter (fun t => From t = n) txs.

Definition sent_to (n : str) (txs : list Transaction) : list Transaction :=
  filter (fun t => To t = n) txs.

(** What [n] pays and what [n] receives in a list of transactions. *)
Definition paid (n : str) (txs : list Transaction) : Q :=
  sum (map Amount (sent_by n txs)).

Definition received (n : str) (txs : list Transaction) : Q :=
  sum (map Amount (sent_to n txs)).

(** The balance [b] of [n] once every transaction is carried out: a
    payment raises the payer's balance and lowers the receiver's. *)
Definition after_transfers (b : Q) (n : str) (txs : list Transaction) : Q :=
  b + paid n txs - received n txs.

(** The same with the amounts subtracted from the payer's balance and
    added to the receiver's. *)
Definition after_transfers_reversed (b : Q) (n : str) (txs : list Transaction) : Q :=
  b - paid n txs + received n txs.

(** The rounding of one emitted amount moves it by at most half a cent. *)
Definition half_cent : Q := 1 # 200.

Definition budget (k : nat) : Q := inject_Z (Z.of_nat k) * half_cent.

Definition slack (n : str) (txs : list Transaction) : Q :=
  budget (length (sent_by n txs) + length (sent_to n txs)).

(** [y] is [x] rounded to two decimals, ties to the even hundredth. *)
Definition rounds_to_cents (x y : Q) : Prop :=
  exists z : Z,
    y == inject_Z z / 100 /\
    Qabs (x * 100 - inject_Z z) <= 1 # 2 /\
    (Qabs (x * 100 - inject_Z z) == 1 # 2 -> Z.even z = true).

(** The last record of the list that bears the name [n]. *)
Fixpoint last_named (n : str) (participants : list Participant) : option Participant :=
  match participants with
  | [] => None
  | p :: rest =>
      match last_named n rest with
      | Some q => Some q
      | None => if decide (name p = n) then Some p else None
      end
  end.

(** The dict of a comprehension [{p.name: f(p) for p in ps}], begun in [d]. *)
Definition dict_of {V : Type} (f : Participant -> V) (ps : list Participant)
  (d : dict V) : dict V :=
  fold_left (fun d p => dict_set (name p) (f p) d) ps d.

(** The balance the dict of line 72 holds for a record: its own amount
    less the share stored under its name. *)
Definition stored_balance (ts tw : Q) (all : list Participant) (p : Participant) : Q :=
  amount_spent p -
  match last_named (name p) all with
  | Some q => ts * weight q / tw
  | None => 0
  end.

(** One turn of the [while] loop as a transition. *)
Definition walk_step (w w' : walk) : Prop :=
  walk_cond w = true /\ walk_body w = Ok w'.

Definition initial_walk (balances : dict Q) : walk :=
  {| debtors := debtors_of balances; creditors := creditors_of balances;
     i := 0; j := 0; transactions := [] |}.

Definition ascending (l : list (str * Q)) : Prop :=
  StronglySorted (fun x y => snd x <= snd y) l.

(** The state after one turn taken at the debtor [(dn, d)] and the
    creditor [(cn, c)]. *)
Definition turn (w : walk) (dn : str) (d : Q) (cn : str) (c : Q) : walk :=
  let amount := min d c in
  {| debtors := <[i w := (dn, d - amount)]> (debtors w);
     creditors := <[j w := (cn, c - amount)]> (creditors w);
     i := if Qeq_bool (d - amount) 0 then S (i w) else i w;
     j := if Qeq_bool (c - amount) 0 then S (j w) else j w;
     transactions :=
       transactions w ++ [{| From := dn; To := cn; Amount := round2 amount |}] |}.

(** The entries the pointers have not passed yet, and their number. *)
Definition rest_debtors (w : walk) : list (str * Q) := drop (i w) (debtors w).

Definition rest_creditors (w : walk) : list (str * Q) := drop (j w) (creditors w).

Definition remaining (w : walk) : nat :=
  (length (debtors w) - i w) + (length (creditors w) - j w).

(** An entry after [amount] is taken from it: it goes when nothing is
    left of it, else it stays first with what is left. *)
Definition carry (e : str * Q) (amount : Q) (rest : list (str * Q)) : list (str * Q) :=
  if Qeq_bool (snd e - amount) 0 then rest else (fst e, snd e - amount) :: rest.

(** The transactions of the loop, on the entries not passed yet. *)
Fixpoint greedy (fuel : nat) (D C : list (str * Q)) : list Transaction :=
  match fuel, D, C with
  | S fuel', e :: D', f :: C' =>
      let amount := min (snd e) (snd f) in
      {| From := fst e; To := fst f; Amount := round2 amount |}
      :: greedy fuel' (carry e amount D') (carry f amount C')
  | _, _, _ => []
  end.

Definition all_positive (l : list (str * Q)) : Prop := Forall (fun e => 0 < snd e) l.

(** The hypotheses under which the loop settles the entries [D] and [C]. *)
Record balanced (D C : list (str * Q)) : Prop := {
  balanced_debts : all_positive D;
  balanced_credits : all_positive C;
  balanced_sums : sum (map snd D) == sum (map snd C);
  balanced_debtors : NoDup (map fst D);
  balanced_creditors : NoDup (map fst C)
}.

(** The balances as a list, one entry per record, for names all distinct. *)
Definition balance_list (participants : list Participant) : dict Q :=
  map (fun p => (name p, exact_balance participants p)) participants.

(** ** The session of [streamlit_frontend.py] *)

(** The handler of the form "Add Participant" once submitted: an empty
    name is ignored, any other is made unique against the recorded names
    and the new record is appended. *)
Definition add_participant (name_input : str) (amount_input weight_input : Q)
  (note_input : str) (participants : list Participant) : list Participant :=
  match name_input with
  | [] => participants
  | _ :: _ =>
      let recorded_names := map name participants in
      let unique_name := generate_unique_name name_input recorded_names in
      participants ++ [{| name := unique_name; amount_spent := amount_input;
                          weight := weight_input; note := note_input |}]
  end.

(** The button "Delete Selected":
    [[p for p in participants if p.name != selected]]. *)
Definition delete_selected (selected : str) (participants : list Participant)
  : list Participant :=
  filter (fun p => name p <> selected) participants.

(** One action on the list of the session: an addition under a name that
    is not blank, a deletion, or "Reset All". *)
Inductive session_step : list Participant -> list Participant -> Prop :=
| step_add name_input amount_input weight_input note_input participants :
    strip name_input <> [] ->
    session_step participants
      (add_participant name_input amount_input weight_input note_input participants)
| step_delete selected participants :
    session_step participants (delete_selected selected participants)
| step_reset participants :
    session_step participants [].

(** Names of which no two collide. *)
Inductive apart : list str -> Prop :=
| apart_nil : apart []
| apart_cons a l : (forall b, b ∈ l -> ~ collides a b) -> apart l -> apart (a :: l).

(** The part one existing name plays in the scan: the floor it sets. *)
Definition floor_of (base_name existing : str) : N := scan_step base_name 0 existing.

(** The same record with its weight multiplied by [c]. *)
Definition scale_weight (c : Q) (p : Participant) : Participant :=
  {| name := name p; amount_spent := amount_spent p; weight := c * weight p;
     note := note p |}.

(** Two dicts with the same keys in the same order and equal numbers. *)
Definition same_balances (a b : list (str * Q)) : Prop :=
  Forall2 (fun x y => fst x = fst y /\ snd x == snd y) a b.

(** ** The same code on binary64 floats *)

(** The definitions above compute with exact rationals.  This module
    runs [compute_fair_shares] and [compute_settlements] on IEEE 754
    binary64 values, as the interpreter does: every [+], [-], [*] and [/]
    is rounded to the nearest float, ties to even; [sum] adds from left to
    right starting from 0, one rounded addition per element (the plain
    loop of CPython up to 3.11; later versions carry a compensation term
    along, which is left out here); and [round(x, 2)] is the float nearest
    to the decimal with two places that is nearest to the exact value of
    [x], ties to even. *)

Module Binary64.

Definition float : Type := spec_float.
Definition prec : Z := 53.
Definition emax : Z := 1024.

Definition add : float -> float -> float := SFadd prec emax.
Definition sub : float -> float -> float := SFsub prec emax.
Definition mul : float -> float -> float := SFmul prec emax.
Definition quot : float -> float -> float := SFdiv prec emax.
Definition ltb : float -> float -> bool := SFltb.
Definition eqb : float -> float -> bool := SFeqb.
Definition zero : float := S754_zero false.

(** The float nearest to a rational, ties to even: the quotient is taken
    with 56 bits or more and one more bit that records a remainder.
    [negative_zero] is the sign of the result when it is zero. *)
Definition of_Q (negative_zero : bool) (q : Q) : float :=
  let n := Qnum q in
  let d := Zpos (Qden q) in
  if (n =? 0)%Z then S754_zero negative_zero
  else
    let k := Z.max 0 (56 + Z.log2 d - Z.log2 (Z.abs n)) in
    let a := (Z.abs n * 2 ^ k)%Z in
    let m := (2 * (a / d) + (if (a mod d =? 0)%Z then 0 else 1))%Z in
    binary_normalize prec emax (if (n <? 0)%Z then (- m)%Z else m) (- k - 1) false.

(** A decimal literal. *)
Definition lit (q : Q) : float := of_Q false q.

(** The number a finite float stands for. *)
Definition exact (x : float) : option Q :=
  match x with
  | S754_zero _ => Some 0
  | S754_finite s m e => Some (inject_Z (if s then Zneg m else Zpos m) * Qpower 2 e)
  | S754_infinity _ | S754_nan => None
  end.

Definition finite (x : float) : bool :=
  match x with
  | S754_zero _ | S754_finite _ _ _ => true
  | S754_infinity _ | S754_nan => false
  end.

Definition sign (x : float) : bool :=
  match x with
  | S754_zero s | S754_infinity s | S754_finite s _ _ => s
  | S754_nan => false
  end.

(** [x / y] raises on a divisor equal to zero, of either sign. *)
Definition div (x y : float) : outcome float :=
  if eqb y zero then Raise ZeroDivisionError else Ok (quot x y).

Definition min (a b : float) : float := if ltb b a then b else a.

Definition sum (xs : list float) : float := fold_left add xs zero.

(** [round(x, 2)]: infinities and NaN are returned as they are, a zero
    result keeps the sign of [x]. *)
Definition round2 (x : float) : float :=
  match exact x with
  | Some q => of_Q (sign x) (round_half_even (q * 100) # 100)
  | None => x
  end.

(** [sorted(l, key=lambda x: x[1])], comparing with [<] only. *)
Fixpoint insert_by_snd (x : str * float) (l : list (str * float))
  : list (str * float) :=
  match l with
  | [] => [x]
  | y :: l' => if ltb (snd y) (snd x) then y :: insert_by_snd x l' else x :: l
  end.

Fixpoint sorted_by_snd (l : list (str * float)) : list (str * float) :=
  match l with
  | [] => []
  | x :: l' => insert_by_snd x (sorted_by_snd l')
  end.

Record Participant : Type := {
  name : str;
  amount_spent : float;
  weight : float;
  note : str
}.

Record FairShareRow : Type := {
  Name : str;
  Weight : float;
  Fair_Share : float
}.

Record Transaction : Type := {
  From : str;
  To : str;
  Amount : float
}.

Definition total_weight (participants : list Participant) : float :=
  sum (map weight participants).

Definition total_spendings (participants : list Participant) : float :=
  sum (map amount_spent participants).

Definition normalised_share (participants : list Participant) : float :=
  if ltb zero (total_weight participants)
  then quot (total_spendings participants) (total_weight participants)
  else zero.

Definition compute_fair_shares (participants : list Participant)
  : float * float * list FairShareRow :=
  let normalised_share := normalised_share participants in
  let fair_shares :=
    map (fun p => {| Name := name p;
                     Weight := weight p;
                     Fair_Share := round2 (mul normalised_share (weight p)) |})
        participants in
  (total_spendings participants, normalised_share, fair_shares).

Fixpoint fair_shares_from (ts tw : float) (participants : list Participant)
  (d : dict float) : outcome (dict float) :=
  match participants with
  | [] => Ok d
  | p :: rest =>
      x ← div (mul ts (weight p)) tw;
      fair_shares_from ts tw rest (dict_set (name p) x d)
  end.

Fixpoint balances_from (fair_shares : dict float) (participants : list Participant)
  (d : dict float) : outcome (dict float) :=
  match participants with
  | [] => Ok d
  | p :: rest =>
      fs ← dict_get (name p) fair_shares;
      balances_from fair_shares rest (dict_set (name p) (sub (amount_spent p) fs) d)
  end.

Definition balances_of (participants : list Participant) : outcome (dict float) :=
  let total_weight := total_weight participants in
  let total_spendings := total_spendings participants in
  fair_shares ← fair_shares_from total_spendings total_weight participants [];
  balances_from fair_shares participants [].

Definition debtors_of (balances : dict float) : list (str * float) :=
  sorted_by_snd
    (map (fun nb => (fst nb, SFopp (snd nb))) (filter (fun nb => ltb (snd nb) zero) balances)).

Definition creditors_of (balances : dict float) : list (str * float) :=
  sorted_by_snd (filter (fun nb => ltb zero (snd nb)) balances).

Record walk : Type := {
  debtors : list (str * float);
  creditors : list (str * float);
  i : nat;
  j : nat;
  transactions : list Transaction
}.

Definition walk_cond (w : walk) : bool :=
  (i w <? length (debtors w))%nat && (j w <? length (creditors w))%nat.

Definition walk_body (w : walk) : outcome walk :=
  '(debtor, debt) ← index (debtors w) (i w);
  '(creditor, credit) ← index (creditors w) (j w);
  let amount := min debt credit in
  let transactions :=
    transactions w ++ [{| From := debtor; To := creditor; Amount := round2 amount |}] in
  let debtors := <[i w := (debtor, sub debt amount)]> (debtors w) in
  let creditors := <[j w := (creditor, sub credit amount)]> (creditors w) in
  di ← index debtors (i w);
  let i' := if eqb (snd di) zero then S (i w) else i w in
  cj ← index creditors (j w);
  let j' := if eqb (snd cj) zero then S (j w) else j w in
  Ok {| debtors := debtors; creditors := creditors; i := i'; j := j';
        transactions := transactions |}.

(** The [while] loop, on fuel. *)
Fixpoint while_walk (fuel : nat) (w : walk) : outcome walk :=
  if walk_cond w then
    match fuel with
    | O => OutOfFuel
    | S fuel' => w' ← walk_body w; while_walk fuel' w'
    end
  else Ok w.

Definition settle (balances : dict float) : outcome (list Transaction) :=
  let debtors := debtors_of balances in
  let creditors := creditors_of balances in
  w ← while_walk (length debtors + length creditors)
        {| debtors := debtors; creditors := creditors; i := 0; j := 0;
           transactions := [] |};
  Ok (transactions w).

Definition compute_settlements (participants : list Participant)
  : outcome (list Transaction) :=
  balances ← balances_of participants;
  settle balances.

Definition person (n : string) (spent w : Q) : Participant :=
  {| name := py n; amount_spent := lit spent; weight := lit w; note := [] |}.

End Binary64.

(** * Properties *)

(** ** The scenarios of the specification *)

Example scenario4 :
  generate_unique_name (py "Sam") [py "sam"; py "Sam (2)"] = py "Sam (3)".
Proof. reflexivity. Qed.

Example strips_suffix :
  generate_unique_name (py "  Sam  (12) ") [py "SAM (7)"; py "Bob"] = py "Sam (8)".
Proof. reflexivity. Qed.

Example scenario1 :
  settlements_reduced [person "A" 100 1; person "B" 0 1]
  = Ok [{| From := py "B"; To := py "A"; Amount := 50 |}].
Proof. vm_compute. reflexivity. Qed.

Example scenario2 :
  settlements_reduced [person "A" 90 2; person "B" 0 1]
  = Ok [{| From := py "B"; To := py "A"; Amount := 30 |}].
Proof. vm_compute. reflexivity. Qed.

Example three_way :
  settlements_reduced [person "A" 90 1; person "B" 30 1; person "C" 0 1]
  = Ok [{| From := py "B"; To := py "A"; Amount := 10 |};
        {| From := py "C"; To := py "A"; Amount := 40 |}].
Proof. vm_compute. reflexivity. Qed.

(** ** Sums and comparisons *)

Lemma fold_plus_shift (xs : list Q) (a : Q) :
  fold_left Qplus xs a == a + fold_left Qplus xs 0.
Proof.
  revert a. induction xs as [|x xs IH]; intros a; simpl.
  - lra.
  - rewrite (IH (a + x)), (IH (0 + x)). lra.
Qed.

Lemma sum_nil : sum [] == 0.
Proof. reflexivity. Qed.

Lemma sum_cons (x : Q) (xs : list Q) : sum (x :: xs) == x + sum xs.
Proof. unfold sum. simpl. rewrite fold_plus_shift. lra. Qed.

Lemma sum_app (xs ys : list Q) : sum (xs ++ ys) == sum xs + sum ys.
Proof.
  induction xs as [|x xs IH]; simpl.
  - rewrite sum_nil. lra.
  - rewrite !sum_cons, IH. lra.
Qed.

Lemma Qltb_lt (a b : Q) : Qltb a b = true <-> a < b.
Proof.
  unfold Qltb. rewrite Qlt_alt. destruct (Qcompare a b); split; congruence.
Qed.

Lemma Qltb_ge (a b : Q) : Qltb a b = false <-> b <= a.
Proof.
  rewrite <- not_true_iff_false, Qltb_lt. split; [apply Qnot_lt_le | apply Qle_not_lt].
Qed.

Lemma min_spec (a b : Q) :
  (b < a /\ min a b = b) \/ (a <= b /\ min a b = a).
Proof.
  unfold min. destruct (Qltb b a) eqn:E.
  - left. apply Qltb_lt in E. auto.
  - right. apply Qltb_ge in E. auto.
Qed.

Lemma div_ok (x y : Q) : ~ y == 0 -> div x y = Ok (x / y).
Proof.
  intros H. unfold div. destruct (Qeq_bool y 0) eqn:E; [|reflexivity].
  apply Qeq_bool_iff in E. contradiction.
Qed.

Lemma div_zero (x y : Q) : y == 0 -> div x y = Raise ZeroDivisionError.
Proof.
  intros H. unfold div. apply Qeq_bool_iff in H. now rewrite H.
Qed.

(** ** Zero total weight *)

Lemma settlements_zero_weight (p : Participant) (rest : list Participant) :
  total_weight (p :: rest) == 0 ->
  compute_settlements (p :: rest) = Raise ZeroDivisionError.
Proof.
  intros H. unfold compute_settlements, balances_of.
  cbn [fair_shares_from]. now rewrite (div_zero _ _ H).
Qed.

(** C1: a list of one participant of weight 0 has total weight 0, and
    [compute_settlements] on it does not return the settlement of the
    balances: the division of line 71 raises [ZeroDivisionError], while
    [compute_fair_shares] on the same list returns a unit share of 0. *)
Theorem settlements_raise_on_zero_weight :
  total_weight [person "A" 10 0] == 0 /\
  compute_settlements [person "A" 10 0] = Raise ZeroDivisionError /\
  snd (fst (compute_fair_shares [person "A" 10 0])) = 0.
Proof.
  split; [reflexivity|]. split; [|reflexivity].
  apply settlements_zero_weight. reflexivity.
Qed.

(** ** The empty list *)

(** C9: on the empty list [compute_fair_shares] returns zero totals and
    no row, and [compute_settlements] returns no transaction; no division
    takes place, so nothing is raised. *)
Theorem empty_participants :
  compute_fair_shares [] = (0, 0, []) /\
  compute_settlements [] = Ok [] /\
  fair_shares_from (total_spendings []) (total_weight []) [] [] = Ok [].
Proof. repeat split. Qed.

(** ** Balances sum to zero *)

Lemma sum_balances_linear (c : Q) (ps : list Participant) :
  sum (map (fun p => amount_spent p - c * weight p) ps)
  == sum (map amount_spent ps) - c * sum (map weight ps).
Proof.
  induction ps as [|p ps IH]; simpl.
  - rewrite !sum_nil. lra.
  - rewrite !sum_cons, IH. lra.
Qed.

Lemma sum_ext {A : Type} (f g : A -> Q) (l : list A) :
  (forall x, In x l -> f x == g x) -> sum (map f l) == sum (map g l).
Proof.
  induction l as [|x l IH]; intros H; simpl.
  - reflexivity.
  - rewrite !sum_cons. rewrite IH by (intros; apply H; simpl; auto).
    rewrite (H x) by (simpl; auto). reflexivity.
Qed.

Lemma sum_scale {A : Type} (c : Q) (f : A -> Q) (l : list A) :
  sum (map (fun x => c * f x) l) == c * sum (map f l).
Proof.
  induction l as [|x l IH]; simpl.
  - rewrite !sum_nil. lra.
  - rewrite !sum_cons, IH. lra.
Qed.

Lemma exact_balances_sum (ps : list Participant) :
  ~ total_weight ps == 0 ->
  sum (map (exact_balance ps) ps) == 0.
Proof.
  intros Hw.
  rewrite (sum_ext _ (fun p => amount_spent p
     - (total_spendings ps / total_weight ps) * weight p)).
  - rewrite sum_balances_linear. fold (total_spendings ps) (total_weight ps).
    field. exact Hw.
  - intros p _. unfold exact_balance, exact_fair_share. field. exact Hw.
Qed.

(** C7: when the total weight is positive, the balances
    [amount_spent - total_spendings * weight / total_weight], taken in
    exact arithmetic over all participants, sum to zero; the exact fair
    shares sum to the total spend. *)
Theorem balances_sum_to_zero (participants : list Participant) :
  0 < total_weight participants ->
  sum (map (fun p => amount_spent p
                     - total_spendings participants * weight p
                       / total_weight participants) participants) == 0
  /\ sum (map (exact_fair_share participants) participants)
     == total_spendings participants.
Proof.
  intros Hw.
  assert (Hne : ~ total_weight participants == 0) by lra.
  split.
  - apply (exact_balances_sum participants Hne).
  - rewrite (sum_ext _ (fun p => (total_spendings participants
       / total_weight participants) * weight p)).
    + rewrite sum_scale. fold (total_weight participants). field. exact Hne.
    + intros p _. unfold exact_fair_share. field. exact Hne.
Qed.

Lemma balances_sum_to_zero_witness :
  let ps := [person "A" 100 1; person "B" 0 1] in
  0 < total_weight ps /\
  sum (map (fun p => amount_spent p
                     - total_spendings ps * weight p / total_weight ps) ps) == 0.
Proof.
  split; [reflexivity|].
  apply (balances_sum_to_zero [person "A" 100 1; person "B" 0 1]). reflexivity.
Defined.

(** ** Rounding and fair shares *)

Lemma round_half_even_spec (x : Q) :
  let z := round_half_even x in
  Qabs (x - inject_Z z) <= 1 # 2 /\
  (Qabs (x - inject_Z z) == 1 # 2 -> Z.even z = true).
Proof.
  unfold round_half_even.
  pose proof (Qfloor_le x) as Hlo. pose proof (Qlt_floor x) as Hhi.
  rewrite inject_Z_plus in Hhi. change (inject_Z 1) with 1 in Hhi.
  set (f := Qfloor x) in *.
  destruct (Qcompare (x - inject_Z f) (1 # 2)) eqn:E; cbv zeta.
  - apply Qeq_alt in E. destruct (Z.even f) eqn:Ev.
    + split; [apply Qabs_case; intros; lra | trivial].
    + rewrite inject_Z_plus. change (inject_Z 1) with 1. split.
      * apply Qabs_case; intros; lra.
      * intros _. rewrite Z.add_1_r, Z.even_succ, <- Z.negb_even, Ev. reflexivity.
  - apply Qlt_alt in E. split.
    + apply Qabs_case; intros; lra.
    + apply Qabs_case; intros; lra.
  - apply Qgt_alt in E. rewrite inject_Z_plus. change (inject_Z 1) with 1. split.
    + apply Qabs_case; intros; lra.
    + apply Qabs_case; intros; lra.
Qed.

Lemma round2_rounds (x : Q) : rounds_to_cents x (round2 x).
Proof.
  exists (round_half_even (x * 100)). split; [reflexivity|].
  apply (round_half_even_spec (x * 100)).
Qed.

Lemma round2_close (x : Q) : Qabs (round2 x - x) <= half_cent.
Proof.
  destruct (round2_rounds x) as (z & Hy & Hle & _).
  rewrite Hy. unfold half_cent. revert Hle.
  apply Qabs_case; intros; apply Qabs_case; intros; 
    (assert (inject_Z z / 100 == inject_Z z * (1 # 100)) as -> by field); lra.
Qed.

(** In exact arithmetic [compute_fair_shares] returns the sum of the
    amounts spent, the unit share [total_spendings / total_weight] when the
    total weight is positive and 0 otherwise, and one row per participant,
    in the order of the input, with the participant's name and weight and
    the unit share times the weight rounded to two decimals, ties to even.
    The last part of the file has the same on floats. *)
Theorem fair_shares_spec (participants : list Participant) :
  let '(spent, unit_share, rows) := compute_fair_shares participants in
  spent = sum (map amount_spent participants) /\
  (0 < total_weight participants ->
     unit_share = total_spendings participants / total_weight participants) /\
  (~ 0 < total_weight participants -> unit_share = 0) /\
  length rows = length participants /\
  map Name rows = map name participants /\
  (forall (k : nat) (p : Participant),
     participants !! k = Some p ->
     exists row,
       rows !! k = Some row /\ Name row = name p /\ Weight row = weight p /\
       Fair_Share row = round2 (unit_share * weight p) /\
       rounds_to_cents (unit_share * weight p) (Fair_Share row)).
Proof.
  unfold compute_fair_shares, normalised_share.
  split; [reflexivity|].
  split.
  { intros H. apply Qltb_lt in H. now rewrite H. }
  split.
  { intros H. destruct (Qltb 0 (total_weight participants)) eqn:E; [|reflexivity].
    apply Qltb_lt in E. contradiction. }
  split; [apply length_map|].
  split; [rewrite map_map; reflexivity|].
  intros k p Hk. eexists. split.
  - rewrite list_lookup_fmap, Hk. reflexivity.
  - repeat split; try reflexivity. apply round2_rounds.
Qed.

(** ** Dicts keyed by name *)

Section Dicts.
Context {V : Type}.
Implicit Types (d : dict V) (k n : str) (v : V).

Lemma dict_get_set d k v n :
  dict_get n (dict_set k v d) = if decide (k = n) then Ok v else dict_get n d.
Proof.
  induction d as [|[k' v'] d IH]; cbn [dict_set dict_get].
  - destruct (decide (k = n)); reflexivity.
  - destruct (decide (k' = k)) as [->|Hk]; cbn [dict_get].
    + destruct (decide (k = n)); reflexivity.
    + destruct (decide (k' = n)) as [->|Hn].
      * rewrite decide_False by congruence. reflexivity.
      * exact IH.
Qed.

Lemma dict_set_keys d k v :
  map fst (dict_set k v d) =
  if decide (k ∈ map fst d) then map fst d else map fst d ++ [k].
Proof.
  induction d as [|[k' v'] d IH]; cbn [dict_set map fst].
  - rewrite decide_False by (intros H; inversion H). reflexivity.
  - destruct (decide (k' = k)) as [->|Hk]; cbn [map fst].
    + rewrite decide_True by left. reflexivity.
    + rewrite IH. destruct (decide (k ∈ map fst d)) as [Hin|Hin].
      * rewrite decide_True by (right; exact Hin). reflexivity.
      * rewrite decide_False; [reflexivity|].
        intros H. apply elem_of_cons in H as [->|H]; contradiction.
Qed.

Lemma dict_set_NoDup d k v :
  NoDup (map fst d) -> NoDup (map fst (dict_set k v d)).
Proof.
  intros H. rewrite dict_set_keys. case_decide as Hin; [exact H|].
  apply NoDup_app. split; [exact H|]. split.
  - intros x Hx Hx'. apply list_elem_of_singleton in Hx'. subst. contradiction.
  - apply NoDup_singleton.
Qed.

Lemma dict_set_elem d k v n :
  n ∈ map fst (dict_set k v d) <-> n = k \/ n ∈ map fst d.
Proof.
  rewrite dict_set_keys. case_decide as Hin.
  - split; [auto | intros [->|H]; assumption].
  - rewrite elem_of_app, list_elem_of_singleton. tauto.
Qed.

Lemma dict_of_get f ps d n :
  dict_get n (dict_of f ps d) =
  match last_named n ps with
  | Some p => Ok (f p)
  | None => dict_get n d
  end.
Proof.
  revert d. induction ps as [|p ps IH]; intros d; simpl; [reflexivity|].
  rewrite IH. destruct (last_named n ps); [reflexivity|].
  rewrite dict_get_set. destruct (decide (name p = n)); reflexivity.
Qed.

Lemma dict_of_NoDup f ps d :
  NoDup (map fst d) -> NoDup (map fst (dict_of f ps d)).
Proof.
  revert d. induction ps as [|p ps IH]; intros d H; simpl; [exact H|].
  apply IH, dict_set_NoDup, H.
Qed.

Lemma dict_of_elem f ps d n :
  n ∈ map fst (dict_of f ps d) <-> n ∈ map name ps \/ n ∈ map fst d.
Proof.
  revert d. induction ps as [|p ps IH]; intros d; simpl.
  - split; [auto | intros [H|H]; [inversion H | exact H]].
  - rewrite IH, dict_set_elem, elem_of_cons. tauto.
Qed.

(** With names that are all different and new, the dict is the list. *)
Lemma dict_of_distinct f ps d :
  NoDup (map name ps) ->
  (forall n, n ∈ map name ps -> n ∉ map fst d) ->
  dict_of f ps d = d ++ map (fun p => (name p, f p)) ps.
Proof.
  revert d. induction ps as [|p ps IH]; intros d Hnd Hnew; simpl.
  - now rewrite app_nil_r.
  - apply NoDup_cons in Hnd as [Hp Hnd].
    assert (Hset : dict_set (name p) (f p) d = d ++ [(name p, f p)]).
    { assert (Hp' : name p ∉ map fst d) by (apply Hnew; left).
      clear -Hp'. induction d as [|[k v] d IHd]; cbn [dict_set]; [reflexivity|].
      cbn [map fst] in Hp'. apply not_elem_of_cons in Hp' as [Hne Hp'].
      rewrite decide_False by congruence. now rewrite IHd. }
    rewrite IH; [|exact Hnd|].
    + rewrite Hset, <- app_assoc. reflexivity.
    + intros n Hn Hin. apply dict_set_elem in Hin as [->|Hin]; [contradiction|].
      apply (Hnew n); [right; exact Hn | exact Hin].
Qed.
End Dicts.

Lemma last_named_name (n : str) (ps : list Participant) (p : Participant) :
  last_named n ps = Some p -> name p = n /\ p ∈ ps.
Proof.
  induction ps as [|q ps IH]; simpl; [discriminate|].
  destruct (last_named n ps) as [r|].
  - intros [= <-]. destruct IH as [? ?]; [reflexivity|]. split; [assumption | now right].
  - case_decide; [|discriminate]. intros [= <-]. split; [assumption | left].
Qed.

Lemma last_named_is_Some (n : str) (ps : list Participant) :
  n ∈ map name ps -> is_Some (last_named n ps).
Proof.
  induction ps as [|q ps IH]; simpl; intros H; [inversion H|].
  destruct (last_named n ps) as [r|]; [eauto|].
  apply elem_of_cons in H as [->|H].
  - rewrite decide_True by reflexivity. eauto.
  - destruct (IH H) as [? [=]].
Qed.

Lemma fair_shares_from_ok (ts tw : Q) (ps : list Participant) (d : dict Q) :
  ~ tw == 0 ->
  fair_shares_from ts tw ps d = Ok (dict_of (fun p => ts * weight p / tw) ps d).
Proof.
  intros Hw. revert d. induction ps as [|p ps IH]; intros d; simpl; [reflexivity|].
  rewrite (div_ok _ _ Hw). simpl. apply IH.
Qed.

Lemma balances_from_ok (ts tw : Q) (all ps : list Participant) (d : dict Q) :
  (forall p, p ∈ ps -> p ∈ all) ->
  balances_from (dict_of (fun p => ts * weight p / tw) all []) ps d
  = Ok (dict_of (stored_balance ts tw all) ps d).
Proof.
  revert d. induction ps as [|p ps IH]; intros d Hsub; simpl; [reflexivity|].
  rewrite dict_of_get.
  assert (Hin : name p ∈ map name all).
  { apply list_elem_of_fmap. exists p. split; [reflexivity | apply Hsub; left]. }
  destruct (last_named_is_Some _ _ Hin) as [q Hq].
  rewrite Hq. cbn [mbind outcome_bind dict_of fold_left].
  replace (amount_spent p - ts * weight q / tw) with (stored_balance ts tw all p)
    by (unfold stored_balance; now rewrite Hq).
  apply IH. intros r Hr. apply Hsub. now right.
Qed.

Lemma balances_of_ok (ps : list Participant) :
  ~ total_weight ps == 0 ->
  balances_of ps
  = Ok (dict_of (stored_balance (total_spendings ps) (total_weight ps) ps) ps []).
Proof.
  intros Hw. unfold balances_of.
  rewrite (fair_shares_from_ok _ _ _ _ Hw). simpl.
  apply balances_from_ok. auto.
Qed.

Lemma balances_of_Ok_inv (ps : list Participant) (bal : dict Q) :
  balances_of ps = Ok bal ->
  bal = dict_of (stored_balance (total_spendings ps) (total_weight ps) ps) ps [].
Proof.
  intros H. destruct (Qeq_dec (total_weight ps) 0) as [Hz|Hnz].
  - destruct ps as [|p ps]; [now inversion H|].
    unfold balances_of in H. cbn [fair_shares_from] in H.
    rewrite (div_zero _ _ Hz) in H. discriminate.
  - rewrite (balances_of_ok _ Hnz) in H. now inversion H.
Qed.

(** C10: the fair-share and balance dicts of [compute_settlements] are
    keyed by name.  They are built whenever the total weight is not zero,
    and then hold one entry per distinct name, whose balance comes from the
    last record bearing the name, with the totals summed over all records;
    a list that repeats a name yields fewer balances than records. *)
Theorem balances_keyed_by_name (participants : list Participant) :
  (~ total_weight participants == 0 -> exists bal, balances_of participants = Ok bal) /\
  (forall bal, balances_of participants = Ok bal ->
     NoDup (map fst bal) /\
     (forall n, n ∈ map fst bal <-> n ∈ map name participants) /\
     (forall n p, last_named n participants = Some p ->
        dict_get n bal
        = Ok (amount_spent p
              - sum (map amount_spent participants) * weight p
                / sum (map weight participants))) /\
     (~ NoDup (map name participants) -> (length bal < length participants)%nat)).
Proof.
  split.
  { intros Hw. eexists. apply (balances_of_ok _ Hw). }
  intros bal Hbal. apply balances_of_Ok_inv in Hbal. subst bal.
  set (f := stored_balance _ _ _).
  assert (Hnd : NoDup (map fst (dict_of f participants []))).
  { apply dict_of_NoDup. constructor. }
  assert (Hel : forall n, n ∈ map fst (dict_of f participants [])
                          <-> n ∈ map name participants).
  { intros n. rewrite dict_of_elem. simpl. split; [intros [H|H]; [exact H | inversion H] | auto]. }
  split; [exact Hnd|]. split; [exact Hel|]. split.
  - intros n p Hp. rewrite dict_of_get, Hp. f_equal.
    unfold f, stored_balance.
    destruct (last_named_name _ _ _ Hp) as [Hn _]. rewrite Hn, Hp. reflexivity.
  - intros Hdup.
    destruct (Nat.lt_ge_cases (length (dict_of f participants [])) (length participants))
      as [Hlt|Hge]; [exact Hlt|].
    exfalso. apply Hdup. apply NoDup_ListNoDup.
    apply (List.NoDup_incl_NoDup (l := map fst (dict_of f participants []))).
    + apply NoDup_ListNoDup, Hnd.
    + rewrite !length_map. exact Hge.
    + intros n Hn. apply list_elem_of_In, Hel, list_elem_of_In, Hn.
Qed.

Lemma balances_keyed_by_name_witness :
  let ps := [person "A" 100 1; person "A" 0 1; person "B" 0 1] in
  ~ total_weight ps == 0 /\ ~ NoDup (map name ps) /\
  last_named (py "A") ps = Some (person "A" 0 1) /\
  exists bal,
    balances_of ps = Ok bal /\
    dict_get (py "A") bal
    = Ok (0 - sum (map amount_spent ps) * 1 / sum (map weight ps)) /\
    (length bal < length ps)%nat.
Proof.
  set (ps := [person "A" 100 1; person "A" 0 1; person "B" 0 1]). cbv zeta.
  assert (Hw : ~ total_weight ps == 0) by (intros H; vm_compute in H; discriminate).
  assert (Hdup : ~ NoDup (map name ps)).
  { intros H. apply NoDup_cons in H as [H _]. apply H. left. }
  assert (Hlast : last_named (py "A") ps = Some (person "A" 0 1)) by reflexivity.
  split; [exact Hw|]. split; [exact Hdup|]. split; [exact Hlast|].
  destruct (balances_keyed_by_name ps) as [Hex Hall].
  destruct (Hex Hw) as [bal Hbal]. exists bal.
  destruct (Hall bal Hbal) as (_ & _ & Hget & Hlen).
  split; [exact Hbal|]. split; [exact (Hget _ _ Hlast) | exact (Hlen Hdup)].
Defined.

Example duplicate_names :
  balances_of [person "A" 100 1; person "A" 0 1; person "B" 0 1]
  = Ok [(py "A", 0 - 100 * 1 / 3); (py "B", 0 - 100 * 1 / 3)].
Proof. reflexivity. Qed.

(** ** [sorted] *)

Lemma insert_by_snd_perm (x : str * Q) (l : list (str * Q)) :
  insert_by_snd x l ≡ₚ x :: l.
Proof.
  induction l as [|y l IH]; simpl; [reflexivity|].
  destruct (Qle_bool (snd x) (snd y)); [reflexivity|].
  rewrite IH. apply Permutation_swap.
Qed.

Lemma sorted_by_snd_perm (l : list (str * Q)) : sorted_by_snd l ≡ₚ l.
Proof.
  induction l as [|x l IH]; simpl; [reflexivity|].
  now rewrite insert_by_snd_perm, IH.
Qed.

Lemma insert_by_snd_ascending (x : str * Q) (l : list (str * Q)) :
  ascending l -> ascending (insert_by_snd x l).
Proof.
  unfold ascending. induction 1 as [|y l Hl IH Hy]; simpl.
  - repeat constructor.
  - destruct (Qle_bool (snd x) (snd y)) eqn:E.
    + apply Qle_bool_iff in E. constructor; [constructor; assumption|].
      constructor; [exact E|].
      eapply Forall_impl; [exact Hy|]. intros z Hz. simpl in Hz. lra.
    + assert (Hyx : snd y <= snd x).
      { destruct (Qlt_le_dec (snd y) (snd x)) as [H|H]; [lra|].
        apply Qle_bool_iff in H. congruence. }
      constructor; [exact IH|].
      rewrite (insert_by_snd_perm x l). constructor; assumption.
Qed.

Lemma sorted_by_snd_ascending (l : list (str * Q)) : ascending (sorted_by_snd l).
Proof.
  induction l as [|x l IH]; simpl; [constructor|].
  apply insert_by_snd_ascending, IH.
Qed.

(** Entries of equal magnitude keep their order: the sort is stable. *)
Lemma insert_by_snd_stable (q : Q) (x : str * Q) (l : list (str * Q)) :
  filter (fun e => Qeq_bool (snd e) q = true) (insert_by_snd x l)
  = filter (fun e => Qeq_bool (snd e) q = true) (x :: l).
Proof.
  induction l as [|y l IH]; cbn [insert_by_snd]; [reflexivity|].
  destruct (Qle_bool (snd x) (snd y)) eqn:E; [reflexivity|].
  rewrite (filter_cons _ y), IH, !(filter_cons _ x), (filter_cons _ y).
  destruct (decide (Qeq_bool (snd x) q = true)) as [Hx|Hx];
    destruct (decide (Qeq_bool (snd y) q = true)) as [Hy|Hy]; try reflexivity.
  exfalso. apply Qeq_bool_iff in Hx, Hy.
  assert (Hle : snd x <= snd y) by lra.
  apply Qle_bool_iff in Hle. congruence.
Qed.

Lemma sorted_by_snd_stable (q : Q) (l : list (str * Q)) :
  filter (fun e => Qeq_bool (snd e) q = true) (sorted_by_snd l)
  = filter (fun e => Qeq_bool (snd e) q = true) l.
Proof.
  induction l as [|x l IH]; cbn [sorted_by_snd]; [reflexivity|].
  now rewrite insert_by_snd_stable, !filter_cons, IH.
Qed.

Example sorted_keeps_ties :
  map fst (sorted_by_snd [(py "c", 2); (py "a", 1); (py "b", 1 # 1); (py "d", 2 # 2)])
  = [py "a"; py "b"; py "d"; py "c"].
Proof. reflexivity. Qed.

(** ** The greedy loop: one turn *)

Lemma walk_cond_true (w : walk) :
  walk_cond w = true ->
  exists dn d cn c,
    debtors w !! i w = Some (dn, d) /\ creditors w !! j w = Some (cn, c).
Proof.
  unfold walk_cond. rewrite andb_true_iff, !Nat.ltb_lt. intros [Hi Hj].
  destruct (lookup_lt_is_Some_2 _ _ Hi) as [[dn d] Hd].
  destruct (lookup_lt_is_Some_2 _ _ Hj) as [[cn c] Hc].
  eauto 6.
Qed.

Lemma walk_cond_false (w : walk) :
  walk_cond w = false ->
  (length (debtors w) <= i w)%nat \/ (length (creditors w) <= j w)%nat.
Proof.
  unfold walk_cond. rewrite andb_false_iff, !Nat.ltb_ge. tauto.
Qed.

Lemma walk_body_turn (w : walk) dn d cn c :
  debtors w !! i w = Some (dn, d) ->
  creditors w !! j w = Some (cn, c) ->
  walk_body w = Ok (turn w dn d cn c).
Proof.
  intros Hd Hc. unfold walk_body, index. rewrite Hd, Hc.
  cbn [mbind outcome_bind].
  rewrite (list_lookup_insert_eq (debtors w)) by (eapply lookup_lt_Some, Hd).
  rewrite (list_lookup_insert_eq (creditors w)) by (eapply lookup_lt_Some, Hc).
  reflexivity.
Qed.

(** The amount taken settles the debtor or the creditor. *)
Lemma min_settles_one (d c : Q) :
  Qeq_bool (d - min d c) 0 = true \/ Qeq_bool (c - min d c) 0 = true.
Proof.
  destruct (min_spec d c) as [[_ ->]|[_ ->]]; [right|left];
    apply Qeq_bool_iff; lra.
Qed.

Lemma walk_step_spec (w w' : walk) :
  walk_step w w' ->
  exists dn d cn c,
    debtors w !! i w = Some (dn, d) /\
    creditors w !! j w = Some (cn, c) /\
    transactions w'
    = transactions w ++ [{| From := dn; To := cn; Amount := round2 (min d c) |}] /\
    map fst (debtors w') = map fst (debtors w) /\
    map fst (creditors w') = map fst (creditors w) /\
    (i w <= i w' <= S (i w))%nat /\
    (j w <= j w' <= S (j w))%nat /\
    (i w + j w < i w' + j w')%nat.
Proof.
  intros [Hcond Hbody].
  destruct (walk_cond_true w Hcond) as (dn & d & cn & c & Hd & Hc).
  rewrite (walk_body_turn w dn d cn c Hd Hc) in Hbody.
  injection Hbody as <-. exists dn, d, cn, c.
  split; [exact Hd|]. split; [exact Hc|]. split; [reflexivity|].
  cbn [turn debtors creditors i j].
  split.
  { rewrite list_fmap_insert. apply list_insert_id.
    rewrite list_lookup_fmap, Hd. reflexivity. }
  split.
  { rewrite list_fmap_insert. apply list_insert_id.
    rewrite list_lookup_fmap, Hc. reflexivity. }
  destruct (min_settles_one d c) as [E|E]; rewrite E; clear E;
    destruct (Qeq_bool _ 0); lia.
Qed.

(** ** The greedy loop ends *)

Lemma turn_remaining (w : walk) dn d cn c :
  debtors w !! i w = Some (dn, d) ->
  creditors w !! j w = Some (cn, c) ->
  (remaining (turn w dn d cn c) < remaining w)%nat.
Proof.
  intros Hd Hc. apply lookup_lt_Some in Hd, Hc.
  unfold remaining, turn. cbn [debtors creditors i j].
  rewrite !length_insert.
  destruct (min_settles_one d c) as [E|E]; rewrite E; clear E;
    destruct (Qeq_bool _ 0); lia.
Qed.

Lemma while_walk_ends (fuel : nat) (w : walk) :
  (remaining w <= fuel)%nat ->
  exists w', while_walk fuel w = Ok w' /\ walk_cond w' = false /\ rtc walk_step w w'.
Proof.
  revert w. induction fuel as [|fuel IH]; intros w Hrem.
  - exists w. cbn [while_walk].
    assert (Hc : walk_cond w = false).
    { unfold walk_cond, remaining in *. apply andb_false_iff. left.
      apply Nat.ltb_ge. lia. }
    rewrite Hc. split; [reflexivity|]. split; [reflexivity | reflexivity].
  - cbn [while_walk]. destruct (walk_cond w) eqn:Hcond.
    + destruct (walk_cond_true w Hcond) as (dn & d & cn & c & Hd & Hc).
      rewrite (walk_body_turn w dn d cn c Hd Hc). cbn [mbind outcome_bind].
      pose proof (turn_remaining w dn d cn c Hd Hc) as Hlt.
      destruct (IH (turn w dn d cn c)) as (w' & Hrun & Hend & Hsteps); [lia|].
      exists w'. split; [exact Hrun|]. split; [exact Hend|].
      eapply rtc_l; [|exact Hsteps]. split; [exact Hcond|].
      apply walk_body_turn; assumption.
    + exists w. split; [reflexivity|]. split; [exact Hcond | reflexivity].
Qed.

(** C6: the loop starts from the debtors and the creditors sorted by
    ascending magnitude, both pointers on the first (smallest) entry and no
    transaction; each turn appends one transaction, from the debtor at [i]
    to the creditor at [j], and moves [i], [j] or both one entry forward;
    the loop ends in a state where a pointer has left its list, and the
    transactions of that state, in the order of the turns, are the result. *)
Theorem greedy_walk_order (balances : dict Q) :
  let w0 := initial_walk balances in
  (ascending (debtors w0) /\
   debtors w0 ≡ₚ map (fun nb => (fst nb, - snd nb))
                    (filter (fun nb => Qltb (snd nb) 0) balances)) /\
  (ascending (creditors w0) /\
   creditors w0 ≡ₚ filter (fun nb => Qltb 0 (snd nb)) balances) /\
  (i w0 = 0%nat /\ j w0 = 0%nat /\ transactions w0 = []) /\
  (forall w w', walk_step w w' ->
     exists dn d cn c,
       debtors w !! i w = Some (dn, d) /\
       creditors w !! j w = Some (cn, c) /\
       transactions w'
       = transactions w ++ [{| From := dn; To := cn; Amount := round2 (min d c) |}] /\
       map fst (debtors w') = map fst (debtors w) /\
       map fst (creditors w') = map fst (creditors w) /\
       (i w <= i w' <= S (i w))%nat /\
       (j w <= j w' <= S (j w))%nat /\
       (i w + j w < i w' + j w')%nat) /\
  (exists w_end,
     rtc walk_step w0 w_end /\
     ((length (debtors w_end) <= i w_end)%nat
      \/ (length (creditors w_end) <= j w_end)%nat) /\
     settle balances = Ok (transactions w_end)).
Proof.
  cbv zeta. split; [|split; [|split; [|split]]].
  - split; [apply sorted_by_snd_ascending | apply sorted_by_snd_perm].
  - split; [apply sorted_by_snd_ascending | apply sorted_by_snd_perm].
  - repeat split.
  - apply walk_step_spec.
  - destruct (while_walk_ends
                (length (debtors_of balances) + length (creditors_of balances))
                (initial_walk balances)) as (w' & Hrun & Hend & Hsteps).
    { unfold remaining, initial_walk. cbn [debtors creditors i j]. lia. }
    exists w'. split; [exact Hsteps|]. split; [apply walk_cond_false, Hend|].
    unfold settle. fold (initial_walk balances). rewrite Hrun. reflexivity.
Qed.

(** ** The loop on the entries not passed yet *)

Lemma turn_rest_debtors (w : walk) dn d cn c :
  debtors w !! i w = Some (dn, d) ->
  rest_debtors w = (dn, d) :: drop (S (i w)) (debtors w) /\
  rest_debtors (turn w dn d cn c)
  = carry (dn, d) (min d c) (drop (S (i w)) (debtors w)).
Proof.
  intros Hd. unfold rest_debtors, turn, carry. cbn [debtors i fst snd].
  split; [apply drop_S, Hd|].
  destruct (Qeq_bool (d - min d c) 0).
  - apply drop_insert_lt. lia.
  - rewrite drop_insert_ge, Nat.sub_diag, (drop_S _ _ _ Hd) by lia. reflexivity.
Qed.

Lemma turn_rest_creditors (w : walk) dn d cn c :
  creditors w !! j w = Some (cn, c) ->
  rest_creditors w = (cn, c) :: drop (S (j w)) (creditors w) /\
  rest_creditors (turn w dn d cn c)
  = carry (cn, c) (min d c) (drop (S (j w)) (creditors w)).
Proof.
  intros Hc. unfold rest_creditors, turn, carry. cbn [creditors j fst snd].
  split; [apply drop_S, Hc|].
  destruct (Qeq_bool (c - min d c) 0).
  - apply drop_insert_lt. lia.
  - rewrite drop_insert_ge, Nat.sub_diag, (drop_S _ _ _ Hc) by lia. reflexivity.
Qed.

Lemma greedy_nil_l (fuel : nat) (C : list (str * Q)) : greedy fuel [] C = [].
Proof. destruct fuel; reflexivity. Qed.

Lemma greedy_nil_r (fuel : nat) (D : list (str * Q)) : greedy fuel D [] = [].
Proof. destruct fuel, D; reflexivity. Qed.

Lemma while_walk_greedy (fuel : nat) (w w' : walk) :
  while_walk fuel w = Ok w' ->
  transactions w'
  = transactions w ++ greedy fuel (rest_debtors w) (rest_creditors w).
Proof.
  revert w. induction fuel as [|fuel IH]; intros w; cbn [while_walk].
  - destruct (walk_cond w); [discriminate|]. intros [= <-].
    now rewrite app_nil_r.
  - destruct (walk_cond w) eqn:Hcond.
    + destruct (walk_cond_true w Hcond) as (dn & d & cn & c & Hd & Hc).
      rewrite (walk_body_turn w dn d cn c Hd Hc). cbn [mbind outcome_bind].
      intros Hrun. rewrite (IH _ Hrun).
      destruct (turn_rest_debtors w dn d cn c Hd) as [-> ->].
      destruct (turn_rest_creditors w dn d cn c Hc) as [-> ->].
      cbn [greedy turn transactions fst snd]. now rewrite <- app_assoc.
    + intros [= <-]. apply walk_cond_false in Hcond as [H|H].
      * unfold rest_debtors. rewrite drop_ge, greedy_nil_l by exact H.
        now rewrite app_nil_r.
      * unfold rest_creditors. rewrite (drop_ge (creditors w)), greedy_nil_r by exact H.
        now rewrite app_nil_r.
Qed.

Lemma settle_greedy (balances : dict Q) :
  settle balances
  = Ok (greedy (length (debtors_of balances) + length (creditors_of balances))
          (debtors_of balances) (creditors_of balances)).
Proof.
  destruct (while_walk_ends
              (length (debtors_of balances) + length (creditors_of balances))
              (initial_walk balances)) as (w' & Hrun & _ & _).
  { unfold remaining, initial_walk. cbn [debtors creditors i j]. lia. }
  unfold settle. fold (initial_walk balances). rewrite Hrun.
  cbn [mbind outcome_bind]. f_equal.
  apply while_walk_greedy in Hrun. exact Hrun.
Qed.

(** ** What is left of an entry *)

Lemma carry_cases (e : str * Q) (a : Q) (rest : list (str * Q)) :
  (snd e - a == 0 /\ carry e a rest = rest) \/
  (~ snd e - a == 0 /\ carry e a rest = (fst e, snd e - a) :: rest).
Proof.
  unfold carry. destruct (Qeq_bool (snd e - a) 0) eqn:E.
  - left. split; [apply Qeq_bool_iff, E | reflexivity].
  - right. split; [apply Qeq_bool_neq, E | reflexivity].
Qed.

Lemma carry_positive (e : str * Q) (a : Q) (rest : list (str * Q)) :
  a <= snd e -> all_positive rest -> all_positive (carry e a rest).
Proof.
  intros Ha Hrest. destruct (carry_cases e a rest) as [[_ ->]|[Hne ->]];
    [exact Hrest|].
  constructor; [|exact Hrest]. cbn [snd].
  destruct (Qlt_le_dec 0 (snd e - a)) as [H|H]; [exact H|].
  exfalso. apply Hne. lra.
Qed.

Lemma carry_sum (e : str * Q) (a : Q) (rest : list (str * Q)) :
  sum (map snd (carry e a rest)) == snd e + sum (map snd rest) - a.
Proof.
  destruct (carry_cases e a rest) as [[Hz ->]|[_ ->]].
  - lra.
  - cbn [map snd]. rewrite sum_cons. lra.
Qed.

Lemma carry_names (e : str * Q) (a : Q) (rest : list (str * Q)) (n : str) :
  n ∈ map fst (carry e a rest) -> n = fst e \/ n ∈ map fst rest.
Proof.
  destruct (carry_cases e a rest) as [[_ ->]|[_ ->]]; [auto|].
  cbn [map fst]. intros H. apply elem_of_cons in H. exact H.
Qed.

Lemma carry_NoDup (e : str * Q) (a : Q) (rest : list (str * Q)) :
  NoDup (map fst (e :: rest)) -> NoDup (map fst (carry e a rest)).
Proof.
  intros H. destruct (carry_cases e a rest) as [[_ ->]|[_ ->]].
  - cbn [map] in H. apply NoDup_cons in H. tauto.
  - exact H.
Qed.

Lemma carry_elem (e : str * Q) (a : Q) (rest : list (str * Q)) (x : str * Q) :
  x ∈ rest -> x ∈ carry e a rest.
Proof.
  intros H. destruct (carry_cases e a rest) as [[_ ->]|[_ ->]];
    [exact H | now right].
Qed.

Lemma carry_shrinks (d c : Q) (e f : str * Q) (D C : list (str * Q)) :
  snd e = d -> snd f = c ->
  (length (carry e (min d c) D) + length (carry f (min d c) C)
   < length (e :: D) + length (f :: C))%nat.
Proof.
  intros <- <-. unfold carry.
  destruct (min_settles_one (snd e) (snd f)) as [E|E]; rewrite E; clear E;
    destruct (Qeq_bool _ 0); cbn [length]; lia.
Qed.

(** ** Sums of positive entries *)

Lemma positive_sum (l : list (str * Q)) : all_positive l -> 0 <= sum (map snd l).
Proof.
  induction 1 as [|e l He _ IH]; cbn [map].
  - rewrite sum_nil. lra.
  - rewrite sum_cons. lra.
Qed.

Lemma positive_sum_zero (l : list (str * Q)) :
  all_positive l -> sum (map snd l) == 0 -> l = [].
Proof.
  intros Hp Hz. destruct Hp as [|e l He Hl]; [reflexivity|].
  cbn [map] in Hz. rewrite sum_cons in Hz.
  pose proof (positive_sum l Hl). lra.
Qed.

(** ** What each name pays and receives *)

Lemma sent_by_cons (n : str) (t : Transaction) (txs : list Transaction) :
  sent_by n (t :: txs)
  = if decide (From t = n) then t :: sent_by n txs else sent_by n txs.
Proof. unfold sent_by. rewrite filter_cons. reflexivity. Qed.

Lemma sent_to_cons (n : str) (t : Transaction) (txs : list Transaction) :
  sent_to n (t :: txs)
  = if decide (To t = n) then t :: sent_to n txs else sent_to n txs.
Proof. unfold sent_to. rewrite filter_cons. reflexivity. Qed.

Lemma sent_by_absent (n : str) (txs : list Transaction) :
  (forall t, t ∈ txs -> From t <> n) -> sent_by n txs = [].
Proof.
  induction txs as [|t txs IH]; intros H; [reflexivity|].
  rewrite sent_by_cons, decide_False by (apply H; left).
  apply IH. intros t' Ht'. apply H. now right.
Qed.

Lemma sent_to_absent (n : str) (txs : list Transaction) :
  (forall t, t ∈ txs -> To t <> n) -> sent_to n txs = [].
Proof.
  induction txs as [|t txs IH]; intros H; [reflexivity|].
  rewrite sent_to_cons, decide_False by (apply H; left).
  apply IH. intros t' Ht'. apply H. now right.
Qed.

Lemma greedy_parties (fuel : nat) (D C : list (str * Q)) (t : Transaction) :
  t ∈ greedy fuel D C -> From t ∈ map fst D /\ To t ∈ map fst C.
Proof.
  revert D C. induction fuel as [|fuel IH]; intros D C; [inversion 1|].
  destruct D as [|e D]; [inversion 1|]. destruct C as [|f C]; [inversion 1|].
  cbn [greedy]. intros H. apply elem_of_cons in H as [->|H].
  - cbn [From To map]. split; left.
  - apply IH in H as [HD HC]. cbn [map]. split; apply elem_of_cons.
    + apply carry_names in HD. exact HD.
    + apply carry_names in HC. exact HC.
Qed.

Lemma budget_0 : budget 0 == 0.
Proof. reflexivity. Qed.

Lemma budget_S (k : nat) : budget (S k) == budget k + half_cent.
Proof.
  unfold budget. rewrite Nat2Z.inj_succ, <- Z.add_1_r, inject_Z_plus.
  change (inject_Z 1) with 1. ring.
Qed.

Lemma budget_add (k l : nat) : budget (k + l) == budget k + budget l.
Proof.
  unfold budget. rewrite Nat2Z.inj_add, inject_Z_plus. ring.
Qed.

Lemma min_le_l (a b : Q) : min a b <= a.
Proof. destruct (min_spec a b) as [[? ->]|[? ->]]; lra. Qed.

Lemma min_le_r (a b : Q) : min a b <= b.
Proof. destruct (min_spec a b) as [[? ->]|[? ->]]; lra. Qed.

Lemma paid_cons (n : str) (t : Transaction) (txs : list Transaction) :
  paid n (t :: txs)
  == (if decide (From t = n) then Amount t else 0) + paid n txs.
Proof.
  unfold paid. rewrite sent_by_cons.
  destruct (decide (From t = n)); cbn [map]; [rewrite sum_cons|]; lra.
Qed.

Lemma received_cons (n : str) (t : Transaction) (txs : list Transaction) :
  received n (t :: txs)
  == (if decide (To t = n) then Amount t else 0) + received n txs.
Proof.
  unfold received. rewrite sent_to_cons.
  destruct (decide (To t = n)); cbn [map]; [rewrite sum_cons|]; lra.
Qed.

Lemma balanced_carry (e f : str * Q) (D C : list (str * Q)) :
  balanced (e :: D) (f :: C) ->
  balanced (carry e (min (snd e) (snd f)) D) (carry f (min (snd e) (snd f)) C).
Proof.
  intros [HD HC Hs HnD HnC].
  apply Forall_cons in HD as [He HD]. apply Forall_cons in HC as [Hf HC].
  split.
  - apply carry_positive; [apply min_le_l | exact HD].
  - apply carry_positive; [apply min_le_r | exact HC].
  - rewrite !carry_sum. cbn [map] in Hs. rewrite !sum_cons in Hs. lra.
  - apply carry_NoDup, HnD.
  - apply carry_NoDup, HnC.
Qed.

Lemma balanced_nil_r (D : list (str * Q)) : balanced D [] -> D = [].
Proof.
  intros [HD _ Hs _ _]. apply positive_sum_zero; [exact HD | exact Hs].
Qed.

Lemma balanced_nil_l (C : list (str * Q)) : balanced [] C -> C = [].
Proof.
  intros [_ HC Hs _ _]. apply positive_sum_zero; [exact HC | symmetry; exact Hs].
Qed.

Lemma greedy_pays (fuel : nat) (D C : list (str * Q)) (n : str) (d : Q) :
  (length D + length C <= fuel)%nat ->
  balanced D C ->
  (n, d) ∈ D ->
  Qabs (paid n (greedy fuel D C) - d)
  <= budget (length (sent_by n (greedy fuel D C))).
Proof.
  revert D C d. induction fuel as [|fuel IH]; intros D C d Hlen Hbal Hin.
  { destruct D; [inversion Hin | cbn [length] in Hlen; lia]. }
  destruct D as [|e D]; [inversion Hin|].
  destruct C as [|f C]; [apply balanced_nil_r in Hbal; discriminate|].
  pose proof (balanced_carry e f D C Hbal) as Hbal'.
  pose proof (carry_shrinks (snd e) (snd f) e f D C eq_refl eq_refl) as Hshrink.
  cbn [length] in Hlen, Hshrink.
  cbn [greedy]. set (a := min (snd e) (snd f)) in *.
  set (txs := greedy fuel (carry e a D) (carry f a C)) in *.
  assert (IH' : forall d', (n, d') ∈ carry e a D ->
            Qabs (paid n txs - d') <= budget (length (sent_by n txs))).
  { intros d' Hd'. apply IH; [lia | exact Hbal' | exact Hd']. }
  rewrite paid_cons, sent_by_cons. cbn [From Amount].
  pose proof (round2_close a) as Hr. apply Qabs_Qle_condition in Hr.
  apply elem_of_cons in Hin as [Hhd|Htl].
  - (* the entry the pointer is on *)
    subst e. cbn [fst snd] in *. rewrite !decide_True by reflexivity.
    cbn [length]. rewrite budget_S. apply Qabs_Qle_condition.
    destruct (carry_cases (n, d) a D) as [[Hz Hc]|[Hnz Hc]]; cbn [fst snd] in *.
    + assert (Hnone : sent_by n txs = []).
      { apply sent_by_absent. intros t Ht Hn.
        apply greedy_parties in Ht as [Ht _]. rewrite Hc, Hn in Ht.
        destruct Hbal as [_ _ _ HnD _]. cbn [map fst] in HnD.
        apply NoDup_cons in HnD as [Hfresh _]. contradiction. }
      unfold paid. rewrite Hnone. cbn [map length]. rewrite sum_nil, budget_0. lra.
    + specialize (IH' (d - a)). rewrite Hc in IH'.
      specialize (IH' ltac:(left)). apply Qabs_Qle_condition in IH'. lra.
  - (* an entry further on *)
    assert (Hne : fst e <> n).
    { destruct Hbal as [_ _ _ HnD _]. cbn [map] in HnD.
      apply NoDup_cons in HnD as [Hfresh _]. intros Heq. apply Hfresh.
      apply list_elem_of_fmap. exists (n, d). split; [exact Heq | exact Htl]. }
    rewrite !decide_False by exact Hne.
    specialize (IH' d (carry_elem e a D _ Htl)).
    apply Qabs_Qle_condition in IH'. apply Qabs_Qle_condition. lra.
Qed.

Lemma greedy_receives (fuel : nat) (D C : list (str * Q)) (n : str) (c : Q) :
  (length D + length C <= fuel)%nat ->
  balanced D C ->
  (n, c) ∈ C ->
  Qabs (received n (greedy fuel D C) - c)
  <= budget (length (sent_to n (greedy fuel D C))).
Proof.
  revert D C c. induction fuel as [|fuel IH]; intros D C c Hlen Hbal Hin.
  { destruct C; [inversion Hin | cbn [length] in Hlen; lia]. }
  destruct C as [|f C]; [inversion Hin|].
  destruct D as [|e D]; [apply balanced_nil_l in Hbal; discriminate|].
  pose proof (balanced_carry e f D C Hbal) as Hbal'.
  pose proof (carry_shrinks (snd e) (snd f) e f D C eq_refl eq_refl) as Hshrink.
  cbn [length] in Hlen, Hshrink.
  cbn [greedy]. set (a := min (snd e) (snd f)) in *.
  set (txs := greedy fuel (carry e a D) (carry f a C)) in *.
  assert (IH' : forall c', (n, c') ∈ carry f a C ->
            Qabs (received n txs - c') <= budget (length (sent_to n txs))).
  { intros c' Hc'. apply IH; [lia | exact Hbal' | exact Hc']. }
  rewrite received_cons, sent_to_cons. cbn [To Amount].
  pose proof (round2_close a) as Hr. apply Qabs_Qle_condition in Hr.
  apply elem_of_cons in Hin as [Hhd|Htl].
  - subst f. cbn [fst snd] in *. rewrite !decide_True by reflexivity.
    cbn [length]. rewrite budget_S. apply Qabs_Qle_condition.
    destruct (carry_cases (n, c) a C) as [[Hz Hc]|[Hnz Hc]]; cbn [fst snd] in *.
    + assert (Hnone : sent_to n txs = []).
      { apply sent_to_absent. intros t Ht Hn.
        apply greedy_parties in Ht as [_ Ht]. rewrite Hc, Hn in Ht.
        destruct Hbal as [_ _ _ _ HnC]. cbn [map fst] in HnC.
        apply NoDup_cons in HnC as [Hfresh _]. contradiction. }
      unfold received. rewrite Hnone. cbn [map length]. rewrite sum_nil, budget_0. lra.
    + specialize (IH' (c - a)). rewrite Hc in IH'.
      specialize (IH' ltac:(left)). apply Qabs_Qle_condition in IH'. lra.
  - assert (Hne : fst f <> n).
    { destruct Hbal as [_ _ _ _ HnC]. cbn [map] in HnC.
      apply NoDup_cons in HnC as [Hfresh _]. intros Heq. apply Hfresh.
      apply list_elem_of_fmap. exists (n, c). split; [exact Heq | exact Htl]. }
    rewrite !decide_False by exact Hne.
    specialize (IH' c (carry_elem f a C _ Htl)).
    apply Qabs_Qle_condition in IH'. apply Qabs_Qle_condition. lra.
Qed.

(** ** Balances of records with distinct names *)

Lemma last_named_distinct (ps : list Participant) (p : Participant) :
  NoDup (map name ps) -> p ∈ ps -> last_named (name p) ps = Some p.
Proof.
  induction ps as [|q ps IH]; intros Hnd Hin; [inversion Hin|].
  cbn [map] in Hnd. apply NoDup_cons in Hnd as [Hq Hnd]. cbn [last_named].
  apply elem_of_cons in Hin as [->|Hin].
  - destruct (last_named (name q) ps) as [r|] eqn:E.
    + apply last_named_name in E as [Hn Hr]. exfalso. apply Hq.
      rewrite <- Hn. apply list_elem_of_fmap. eauto.
    + now rewrite decide_True.
  - now rewrite (IH Hnd Hin).
Qed.

Lemma name_inj (ps : list Participant) (p q : Participant) :
  NoDup (map name ps) -> p ∈ ps -> q ∈ ps -> name p = name q -> p = q.
Proof.
  intros Hnd Hp Hq Hn.
  pose proof (last_named_distinct ps p Hnd Hp) as H1.
  pose proof (last_named_distinct ps q Hnd Hq) as H2.
  rewrite Hn in H1. congruence.
Qed.

Lemma balances_of_distinct (ps : list Participant) :
  NoDup (map name ps) -> ~ total_weight ps == 0 ->
  balances_of ps = Ok (balance_list ps).
Proof.
  intros Hnd Hw. rewrite (balances_of_ok ps Hw). f_equal.
  rewrite dict_of_distinct; [|exact Hnd | intros n _ H; inversion H].
  cbn [app]. unfold balance_list. apply map_ext_in. intros p Hp.
  apply list_elem_of_In in Hp. unfold stored_balance.
  now rewrite (last_named_distinct ps p Hnd Hp).
Qed.

Lemma balance_list_keys (ps : list Participant) :
  map fst (balance_list ps) = map name ps.
Proof. unfold balance_list. rewrite map_map. reflexivity. Qed.

Lemma balance_list_sum (ps : list Participant) :
  ~ total_weight ps == 0 -> sum (map snd (balance_list ps)) == 0.
Proof.
  intros Hw. unfold balance_list. rewrite map_map. cbn [snd].
  apply exact_balances_sum, Hw.
Qed.

(** ** Debtors and creditors of a dict *)

Lemma sum_perm (xs ys : list Q) : xs ≡ₚ ys -> sum xs == sum ys.
Proof.
  induction 1 as [|x xs ys _ IH|x y xs|xs ys zs _ IH1 _ IH2].
  - reflexivity.
  - rewrite !sum_cons, IH. reflexivity.
  - rewrite !sum_cons. lra.
  - now rewrite IH1.
Qed.

Lemma debtors_of_elem (bal : dict Q) (n : str) (d : Q) :
  (n, d) ∈ debtors_of bal <-> exists b, (n, b) ∈ bal /\ b < 0 /\ d = - b.
Proof.
  unfold debtors_of. rewrite sorted_by_snd_perm, list_elem_of_fmap. split.
  - intros ([n' b] & Heq & Hin). apply list_elem_of_filter in Hin as [Hb Hin].
    cbn [fst snd] in *. injection Heq as -> ->. exists b.
    apply Is_true_true, Qltb_lt in Hb. auto.
  - intros (b & Hin & Hb & ->). exists (n, b). split; [reflexivity|].
    apply list_elem_of_filter. split; [|exact Hin].
    apply Is_true_true, Qltb_lt. exact Hb.
Qed.

Lemma creditors_of_elem (bal : dict Q) (n : str) (c : Q) :
  (n, c) ∈ creditors_of bal <-> (n, c) ∈ bal /\ 0 < c.
Proof.
  unfold creditors_of. rewrite sorted_by_snd_perm, list_elem_of_filter.
  cbn [snd]. rewrite Is_true_true, Qltb_lt. tauto.
Qed.

Lemma keys_filter_NoDup (P : str * Q -> Prop) `{forall x, Decision (P x)}
  (l : dict Q) :
  NoDup (map fst l) -> NoDup (map fst (filter P l)).
Proof.
  induction l as [|x l IH]; intros Hnd; [constructor|].
  cbn [map] in Hnd. apply NoDup_cons in Hnd as [Hx Hnd].
  rewrite filter_cons. destruct (decide (P x)); [|apply IH, Hnd].
  cbn [map]. apply NoDup_cons. split; [|apply IH, Hnd].
  intros Hin. apply Hx. apply list_elem_of_fmap in Hin as (y & -> & Hy).
  apply list_elem_of_filter in Hy as [_ Hy]. apply list_elem_of_fmap. eauto.
Qed.

Lemma debtors_of_NoDup (bal : dict Q) :
  NoDup (map fst bal) -> NoDup (map fst (debtors_of bal)).
Proof.
  intros Hnd. unfold debtors_of. rewrite sorted_by_snd_perm, map_map.
  cbn [fst]. apply (keys_filter_NoDup _ bal Hnd).
Qed.

Lemma creditors_of_NoDup (bal : dict Q) :
  NoDup (map fst bal) -> NoDup (map fst (creditors_of bal)).
Proof.
  intros Hnd. unfold creditors_of. rewrite sorted_by_snd_perm.
  apply (keys_filter_NoDup _ bal Hnd).
Qed.

Lemma debts_less_credits (bal : dict Q) :
  sum (map snd (debtors_of bal)) - sum (map snd (creditors_of bal))
  == - sum (map snd bal).
Proof.
  unfold debtors_of, creditors_of.
  rewrite (sum_perm _ _ (Permutation_map snd (sorted_by_snd_perm _))).
  rewrite (sum_perm _ _ (Permutation_map snd (sorted_by_snd_perm
             (filter (fun nb => Qltb 0 (snd nb)) bal)))).
  induction bal as [|[n b] bal IH]; [reflexivity|].
  rewrite !filter_cons. cbn [map snd]. rewrite sum_cons.
  destruct (decide (Qltb b 0)) as [Hneg|Hneg];
    destruct (decide (Qltb 0 b)) as [Hpos|Hpos]; cbn [map snd fst];
    rewrite ?sum_cons; try lra.
  - apply Is_true_true, Qltb_lt in Hneg. apply Is_true_true, Qltb_lt in Hpos. lra.
  - apply Is_true_false, Qltb_ge in Hneg. apply Is_true_false, Qltb_ge in Hpos. lra.
Qed.

Lemma balanced_debtors_creditors (bal : dict Q) :
  NoDup (map fst bal) -> sum (map snd bal) == 0 ->
  balanced (debtors_of bal) (creditors_of bal).
Proof.
  intros Hnd Hz. split.
  - apply Forall_forall. intros [n d] Hin.
    apply debtors_of_elem in Hin as (b & _ & Hb & ->). cbn [snd]. lra.
  - apply Forall_forall. intros [n c] Hin.
    apply creditors_of_elem in Hin as [_ Hc]. exact Hc.
  - pose proof (debts_less_credits bal). lra.
  - apply debtors_of_NoDup, Hnd.
  - apply creditors_of_NoDup, Hnd.
Qed.

Lemma settle_nothing (bal : dict Q) :
  debtors_of bal = [] \/ creditors_of bal = [] -> settle bal = Ok [].
Proof.
  intros H. rewrite settle_greedy. f_equal.
  destruct H as [-> | ->]; [apply greedy_nil_l | apply greedy_nil_r].
Qed.

(** ** Settlement *)

Lemma balance_list_elem (ps : list Participant) (n : str) (b : Q) :
  (n, b) ∈ balance_list ps <->
  exists p, p ∈ ps /\ n = name p /\ b = exact_balance ps p.
Proof.
  unfold balance_list. rewrite list_elem_of_fmap. split.
  - intros (p & [= -> ->] & Hp). eauto.
  - intros (p & Hp & -> & ->). eauto.
Qed.

Lemma paid_none (n : str) (txs : list Transaction) (names : list str) :
  (forall t, t ∈ txs -> From t ∈ names) -> n ∉ names ->
  sent_by n txs = [].
Proof.
  intros Hall Hn. apply sent_by_absent. intros t Ht Heq.
  apply Hn. rewrite <- Heq. apply Hall, Ht.
Qed.

Lemma received_none (n : str) (txs : list Transaction) (names : list str) :
  (forall t, t ∈ txs -> To t ∈ names) -> n ∉ names ->
  sent_to n txs = [].
Proof.
  intros Hall Hn. apply sent_to_absent. intros t Ht Heq.
  apply Hn. rewrite <- Heq. apply Hall, Ht.
Qed.

(** [compute_settlements] returns, or raises on a zero total weight; the
    fuel of the loop is never used up and no lookup fails. *)
Lemma compute_settlements_total (participants : list Participant) :
  (exists txs, compute_settlements participants = Ok txs) \/
  (participants <> [] /\ total_weight participants == 0 /\
   compute_settlements participants = Raise ZeroDivisionError).
Proof.
  destruct participants as [|p rest]; [left; exists []; reflexivity|].
  destruct (Qeq_dec (total_weight (p :: rest)) 0) as [Hz|Hnz].
  - right. split; [discriminate|]. split; [exact Hz|].
    apply settlements_zero_weight, Hz.
  - left. unfold compute_settlements. rewrite (balances_of_ok _ Hnz).
    cbn [mbind outcome_bind]. rewrite settle_greedy. eauto.
Qed.

(** C3, as the code has it in exact arithmetic: for participants with
    distinct names and a positive total weight, with every sum, product,
    quotient and difference taken without the rounding of floats,
    [compute_settlements] returns transactions such
    that what each debtor pays equals its debt, and what each creditor
    receives equals its credit, up to half a cent per transaction of that
    name; adding the amounts to the payers' balances and subtracting them
    from the receivers' brings every balance to zero up to the same
    rounding; and with no debtor or no creditor nothing is emitted. *)
Theorem settlements_settle (participants : list Participant) :
  NoDup (map name participants) ->
  0 < total_weight participants ->
  exists balances txs,
    balances_of participants = Ok balances /\
    compute_settlements participants = Ok txs /\
    (forall n d, (n, d) ∈ debtors_of balances ->
       Qabs (paid n txs - d) <= budget (length (sent_by n txs))) /\
    (forall n c, (n, c) ∈ creditors_of balances ->
       Qabs (received n txs - c) <= budget (length (sent_to n txs))) /\
    (forall p, p ∈ participants ->
       Qabs (after_transfers (exact_balance participants p) (name p) txs)
       <= slack (name p) txs) /\
    (debtors_of balances = [] \/ creditors_of balances = [] -> txs = []).
Proof.
  intros Hnd Hpos.
  assert (Hw : ~ total_weight participants == 0) by lra.
  set (bal := balance_list participants).
  set (D := debtors_of bal). set (C := creditors_of bal).
  set (txs := greedy (length D + length C) D C).
  assert (Hbal : balances_of participants = Ok bal)
    by apply (balances_of_distinct _ Hnd Hw).
  assert (Hrun : compute_settlements participants = Ok txs).
  { unfold compute_settlements. rewrite Hbal. cbn [mbind outcome_bind].
    apply settle_greedy. }
  assert (Hkeys : NoDup (map fst bal)).
  { unfold bal. rewrite balance_list_keys. exact Hnd. }
  assert (HDC : balanced D C).
  { apply balanced_debtors_creditors; [exact Hkeys|].
    apply balance_list_sum, Hw. }
  assert (Hpays : forall n d, (n, d) ∈ D ->
            Qabs (paid n txs - d) <= budget (length (sent_by n txs))).
  { intros n d Hin. apply greedy_pays; [lia | exact HDC | exact Hin]. }
  assert (Hgets : forall n c, (n, c) ∈ C ->
            Qabs (received n txs - c) <= budget (length (sent_to n txs))).
  { intros n c Hin. apply greedy_receives; [lia | exact HDC | exact Hin]. }
  assert (Hfrom : forall t, t ∈ txs -> From t ∈ map fst D)
    by (intros t Ht; apply (greedy_parties _ _ _ _ Ht)).
  assert (Hto : forall t, t ∈ txs -> To t ∈ map fst C)
    by (intros t Ht; apply (greedy_parties _ _ _ _ Ht)).
  (* the sign of a balance decides the side its name is on *)
  assert (Hside : forall p n b, p ∈ participants -> (n, b) ∈ bal ->
            n = name p -> b = exact_balance participants p).
  { intros p n b Hp Hin ->. apply balance_list_elem in Hin as (q & Hq & Hn & ->).
    now rewrite (name_inj participants p q Hnd Hp Hq Hn). }
  assert (HnotD : forall p, p ∈ participants ->
            0 <= exact_balance participants p -> name p ∉ map fst D).
  { intros p Hp Hb Hin. apply list_elem_of_fmap in Hin as ([n d] & Hn & Hin).
    cbn [fst] in Hn. subst n. apply debtors_of_elem in Hin as (b & Hin & Hneg & _).
    rewrite (Hside p _ _ Hp Hin eq_refl) in Hneg. lra. }
  assert (HnotC : forall p, p ∈ participants ->
            exact_balance participants p <= 0 -> name p ∉ map fst C).
  { intros p Hp Hb Hin. apply list_elem_of_fmap in Hin as ([n c] & Hn & Hin).
    cbn [fst] in Hn. subst n. apply creditors_of_elem in Hin as [Hin Hc].
    rewrite (Hside p _ _ Hp Hin eq_refl) in Hc. lra. }
  exists bal, txs. split; [exact Hbal|]. split; [exact Hrun|].
  split; [exact Hpays|]. split; [exact Hgets|]. split.
  - intros p Hp. unfold after_transfers, slack.
    set (b := exact_balance participants p) in *.
    assert (Hentry : (name p, b) ∈ bal).
    { apply balance_list_elem. eauto. }
    rewrite budget_add. apply Qabs_Qle_condition.
    destruct (Qlt_le_dec b 0) as [Hneg|Hnn].
    + (* a debtor *)
      assert (HinD : (name p, - b) ∈ D) by (apply debtors_of_elem; eauto).
      pose proof (Hpays _ _ HinD) as HP. apply Qabs_Qle_condition in HP.
      assert (Hnone : sent_to (name p) txs = []).
      { apply (received_none _ _ _ Hto), HnotC; [exact Hp | fold b; lra]. }
      unfold received. rewrite Hnone. cbn [map length].
      rewrite sum_nil, budget_0. lra.
    + assert (Hnone : sent_by (name p) txs = []).
      { apply (paid_none _ _ _ Hfrom), HnotD; [exact Hp | exact Hnn]. }
      unfold paid. rewrite Hnone. cbn [map length]. rewrite sum_nil, budget_0.
      destruct (Qlt_le_dec 0 b) as [Hpos'|Hnp].
      * (* a creditor *)
        assert (HinC : (name p, b) ∈ C) by (apply creditors_of_elem; auto).
        pose proof (Hgets _ _ HinC) as HR. apply Qabs_Qle_condition in HR. lra.
      * (* a settled participant *)
        assert (Hnone' : sent_to (name p) txs = []).
        { apply (received_none _ _ _ Hto), HnotC; [exact Hp | exact Hnp]. }
        unfold received. rewrite Hnone'. cbn [map length].
        rewrite sum_nil, budget_0. lra.
  - intros Hempty. apply settle_nothing in Hempty.
    unfold compute_settlements in Hrun. rewrite Hbal in Hrun.
    cbn [mbind outcome_bind] in Hrun. congruence.
Qed.

Lemma settlements_settle_witness :
  let ps := [person "A" 90 1; person "B" 30 1; person "C" 0 1] in
  exists balances txs,
    balances_of ps = Ok balances /\
    compute_settlements ps = Ok txs /\
    (forall n d, (n, d) ∈ debtors_of balances ->
       Qabs (paid n txs - d) <= budget (length (sent_by n txs))) /\
    (forall n c, (n, c) ∈ creditors_of balances ->
       Qabs (received n txs - c) <= budget (length (sent_to n txs))) /\
    (forall p, p ∈ ps ->
       Qabs (after_transfers (exact_balance ps p) (name p) txs)
       <= slack (name p) txs) /\
    (debtors_of balances = [] \/ creditors_of balances = [] -> txs = []).
Proof.
  apply (settlements_settle [person "A" 90 1; person "B" 30 1; person "C" 0 1]).
  - refine (bool_decide_unpack _ _). vm_compute. exact I.
  - reflexivity.
Defined.

(** C3 as stated fails twice.  On two participants with distinct names,
    subtracting the amount from the payer's balance and adding it to the
    receiver's doubles the balances instead of clearing them.  On a list
    that repeats a name the debtors are left unpaid: no transaction is
    emitted although two names owe a third of 100 each. *)
Lemma settlement_claim_fails :
  (let ps := [person "A" 100 1; person "B" 0 1] in
   0 < total_weight ps /\
   exists txs,
     compute_settlements ps = Ok txs /\
     after_transfers_reversed (exact_balance ps (person "B" 0 1)) (py "B") txs
     == - (100 # 1)) /\
  (let ps := [person "A" 100 1; person "A" 0 1; person "B" 0 1] in
   0 < total_weight ps /\
   exists balances,
     balances_of ps = Ok balances /\
     compute_settlements ps = Ok [] /\
     (py "B", 100 # 3) ∈ debtors_of balances /\
     ~ Qabs (paid (py "B") [] - (100 # 3)) <= 1).
Proof.
  split.
  - split; [reflexivity|]. eexists. split; [vm_compute; reflexivity|].
    vm_compute. reflexivity.
  - split; [reflexivity|]. eexists. split; [vm_compute; reflexivity|].
    split; [vm_compute; reflexivity|]. split.
    + apply debtors_of_elem. exists (- (100 # 3)).
      split; [right; left | split; reflexivity].
    + vm_compute. intros H. apply H. reflexivity.
Qed.

(** ** Characters *)

Ltac each_char c :=
  destruct c as [[] [] [] [] [] [] [] []]; vm_compute; try reflexivity;
  try discriminate; auto.

Lemma digit_plain (c : ascii) :
  is_digit c = true -> is_letter c = false /\ is_space c = false.
Proof. each_char c. Qed.

Lemma lower_not_letter (c : ascii) : is_letter c = false -> lower c = c.
Proof. each_char c. Qed.

Lemma lower_letter (c : ascii) : is_letter (lower c) = is_letter c.
Proof. each_char c. Qed.

Lemma lower_idem (c : ascii) : lower (lower c) = lower c.
Proof. each_char c. Qed.

Lemma space_plain (c : ascii) : is_space c = true -> is_letter c = false.
Proof. each_char c. Qed.

Lemma lower_plain (c x : ascii) :
  is_letter x = false -> lower c = lower x -> c = x.
Proof.
  intros Hx Heq. rewrite (lower_not_letter x Hx) in Heq.
  assert (Hc : is_letter c = false) by (rewrite <- lower_letter, Heq; exact Hx).
  now rewrite (lower_not_letter c Hc) in Heq.
Qed.

Lemma ci_eqb_eq (a b : ascii) : ci_eqb a b = true <-> lower a = lower b.
Proof. unfold ci_eqb. apply Ascii.eqb_eq. Qed.

Lemma fold_case_plain (s x : str) :
  forallb (fun c => negb (is_letter c)) x = true ->
  fold_case s = fold_case x -> s = x.
Proof.
  revert s. induction x as [|c x IH]; intros [|a s] Hx Heq; try discriminate;
    [reflexivity|].
  cbn [forallb] in Hx. apply andb_true_iff in Hx as [Hc Hx].
  apply negb_true_iff in Hc. injection Heq as Ha Hs.
  f_equal; [apply lower_plain; assumption | apply IH; assumption].
Qed.

Lemma digits_plain (ds : str) :
  forallb is_digit ds = true -> forallb (fun c => negb (is_letter c)) ds = true.
Proof.
  induction ds as [|c ds IH]; [reflexivity|]. cbn [forallb].
  rewrite !andb_true_iff. intros [Hc Hds].
  split; [|apply IH, Hds]. now rewrite (proj1 (digit_plain c Hc)).
Qed.

Lemma suffix_plain (ds : str) :
  forallb is_digit ds = true ->
  forallb (fun c => negb (is_letter c)) (with_suffix [] ds) = true.
Proof.
  intros H. unfold with_suffix. cbn [app py String.list_ascii_of_string].
  cbn [forallb]. rewrite forallb_app, (digits_plain ds H). reflexivity.
Qed.

(** ** [strip] *)

Lemma lstrip_head (s : str) (c : ascii) (r : str) :
  lstrip s = c :: r -> is_space c = false.
Proof.
  induction s as [|a s IH]; cbn [lstrip]; [discriminate|].
  destruct (is_space a) eqn:E; [exact IH|]. now intros [= <- _].
Qed.

Lemma lstrip_fixed (c : ascii) (s : str) :
  is_space c = false -> lstrip (c :: s) = c :: s.
Proof. intros H. cbn [lstrip]. now rewrite H. Qed.

Lemma lstrip_length (s : str) : (length (lstrip s) <= length s)%nat.
Proof.
  induction s as [|a s IH]; cbn [lstrip length]; [lia|].
  destruct (is_space a); cbn [length]; lia.
Qed.

Lemma rstrip_length (s : str) : (length (rstrip s) <= length s)%nat.
Proof.
  unfold rstrip. rewrite length_rev. etransitivity; [apply lstrip_length|].
  now rewrite length_rev.
Qed.

Lemma last_of_rev (s : str) : last (rev s) = head s.
Proof. destruct s as [|a s]; [reflexivity|]. cbn [rev]. apply last_snoc. Qed.

Lemma head_of_rev (s : str) : head (rev s) = last s.
Proof. rewrite <- (rev_involutive s) at 2. symmetry. apply last_of_rev. Qed.

Lemma strip_last (s : str) (c : ascii) :
  last (strip s) = Some c -> is_space c = false.
Proof.
  unfold strip, rstrip. rewrite last_of_rev.
  destruct (lstrip (rev (lstrip s))) as [|a r] eqn:E; [discriminate|].
  intros [= <-]. apply (lstrip_head _ _ _ E).
Qed.

Lemma strip_no_final_newline (s : str) : ~ final_newline (strip s).
Proof. intros H. apply strip_last in H. discriminate. Qed.

Lemma trimmed_head (c : ascii) (s : str) :
  trimmed (c :: s) -> is_space c = false.
Proof.
  unfold trimmed, strip. intros H. destruct (is_space c) eqn:E; [|reflexivity].
  exfalso. apply (f_equal (@length ascii)) in H.
  pose proof (rstrip_length (lstrip (c :: s))) as H1.
  cbn [lstrip] in H, H1. rewrite E in H, H1.
  pose proof (lstrip_length s). cbn [length] in H. lia.
Qed.

Lemma strip_fixed (c : ascii) (s : str) (z : ascii) :
  is_space c = false -> last (c :: s) = Some z -> is_space z = false ->
  strip (c :: s) = c :: s.
Proof.
  intros Hc Hlast Hz. unfold strip. rewrite (lstrip_fixed c s Hc).
  unfold rstrip. rewrite <- head_of_rev in Hlast.
  destruct (rev (c :: s)) as [|a r] eqn:E; [discriminate|].
  injection Hlast as ->. rewrite (lstrip_fixed z r Hz), <- E.
  apply rev_involutive.
Qed.

Lemma with_suffix_trimmed (base ds : str) :
  base <> [] -> trimmed base -> trimmed (with_suffix base ds).
Proof.
  intros Hne Htr. destruct base as [|c base]; [contradiction|].
  unfold trimmed, with_suffix. cbn [app].
  apply (strip_fixed c _ ")"); [apply (trimmed_head c base Htr) | | reflexivity].
  change (c :: base ++ py " (" ++ ds ++ py ")")
    with ((c :: base) ++ py " (" ++ ds ++ py ")").
  rewrite !app_assoc. apply last_snoc.
Qed.

(** ** [int] and [str] of a number *)

Lemma chars_of_uint_digits (d : Decimal.uint) :
  forallb is_digit (chars_of_uint d) = true.
Proof. induction d; cbn [chars_of_uint forallb]; [reflexivity | exact IHd ..]. Qed.

Lemma int_acc_pos (d : Decimal.uint) (p : positive) :
  fold_left (fun acc c => (10 * acc + (code c - 48))%N) (chars_of_uint d) (Npos p)
  = Npos (Pos.of_uint_acc d p).
Proof.
  revert p. induction d; intros p; cbn [chars_of_uint fold_left Pos.of_uint_acc];
    [reflexivity | rewrite <- IHd; f_equal; vm_compute code; lia ..].
Qed.

Lemma int_chars_of_uint (d : Decimal.uint) :
  int (chars_of_uint d) = N.of_uint d.
Proof.
  unfold int, N.of_uint.
  induction d; cbn [chars_of_uint fold_left Pos.of_uint];
    [reflexivity | exact IHd | rewrite <- int_acc_pos; reflexivity ..].
Qed.

Lemma int_str_of_int (n : N) : int (str_of_int n) = n.
Proof.
  unfold str_of_int. rewrite int_chars_of_uint. apply DecimalN.Unsigned.of_to.
Qed.

Lemma str_of_int_digits (n : N) : digits (str_of_int n).
Proof.
  split; [|apply chars_of_uint_digits].
  unfold str_of_int. destruct n as [|p]; [discriminate|].
  cbn [N.to_uint]. pose proof (DecimalPos.Unsigned.to_uint_nonnil p) as H.
  destruct (Pos.to_uint p); [contradiction | discriminate ..].
Qed.

(** ** The patterns *)

Lemma span_digits_spec (s ds r : str) :
  span_digits s = (ds, r) ->
  s = ds ++ r /\ forallb is_digit ds = true /\
  (forall c r', r = c :: r' -> is_digit c = false).
Proof.
  revert ds r. induction s as [|c s IH]; intros ds r; cbn [span_digits].
  - intros [= <- <-]. repeat split. discriminate.
  - destruct (is_digit c) eqn:E.
    + destruct (span_digits s) as [ds' r'] eqn:Es. intros [= <- <-].
      destruct (IH _ _ eq_refl) as (-> & Hds & Hr).
      repeat split; [cbn [forallb]; now rewrite E | exact Hr].
    + intros [= <- <-]. repeat split. now intros ? ? [= <- _].
Qed.

Lemma span_digits_app (ds r : str) :
  forallb is_digit ds = true ->
  (forall c r', r = c :: r' -> is_digit c = false) ->
  span_digits (ds ++ r) = (ds, r).
Proof.
  intros Hds Hr. induction ds as [|d ds IH]; cbn [app].
  - destruct r as [|c r']; [reflexivity|]. cbn [span_digits].
    now rewrite (Hr c r' eq_refl).
  - cbn [forallb] in Hds. apply andb_true_iff in Hds as [Hd Hds].
    cbn [span_digits]. now rewrite Hd, (IH Hds).
Qed.

Lemma suffix_group_spec (s ds r : str) :
  suffix_group s = Some (ds, r) <-> digits ds /\ s = with_suffix [] ds ++ r.
Proof.
  unfold with_suffix, digits. cbn [app py String.list_ascii_of_string]. split.
  - destruct s as [|sp [|op s]]; cbn [suffix_group]; try discriminate.
    destruct (Ascii.eqb sp " ") eqn:E1; [|discriminate].
    destruct (Ascii.eqb op "(") eqn:E2; [|discriminate]. cbn [andb].
    apply Ascii.eqb_eq in E1, E2. subst sp op.
    destruct (span_digits s) as [[|d ds'] [|cl r']] eqn:Es; try discriminate.
    destruct (Ascii.eqb cl ")") eqn:E3; [|discriminate].
    apply Ascii.eqb_eq in E3. subst cl. intros [= <- <-].
    apply span_digits_spec in Es as (-> & Hds & _).
    split; [split; [discriminate | exact Hds]|].
    now rewrite <- app_assoc.
  - intros [[Hne Hds] ->]. rewrite <- app_assoc. cbn [app suffix_group Ascii.eqb Bool.eqb andb].
    rewrite (span_digits_app ds (")" :: r) Hds) by now intros ? ? [= <- _].
    destruct ds as [|d ds]; [contradiction | reflexivity].
Qed.

Lemma at_dollar_spec (s : str) : ~ final_newline s -> at_dollar s = true <-> s = [].
Proof.
  intros Hnl. destruct s as [|c [|c' s]]; cbn [at_dollar]; split; try easy.
  intros H. apply Ascii.eqb_eq in H. subst c. exfalso. apply Hnl. reflexivity.
Qed.

Lemma final_newline_app (b r : str) :
  r <> [] -> final_newline (b ++ r) <-> final_newline r.
Proof.
  intros Hr. unfold final_newline. rewrite last_app.
  destruct (last r) eqn:E; [reflexivity|]. apply last_None in E. contradiction.
Qed.

Lemma no_final_newline_rest (b r : str) :
  ~ final_newline (b ++ r) -> ~ final_newline r.
Proof.
  intros H Hr. apply H. apply final_newline_app; [|exact Hr].
  intros ->. discriminate.
Qed.

Lemma match_tail_None (s : str) :
  ~ final_newline s -> match_tail s = Some None <-> s = [].
Proof.
  intros Hnl. unfold match_tail.
  destruct (suffix_group s) as [[ds r]|] eqn:E.
  - apply suffix_group_spec in E as [_ ->].
    destruct (at_dollar r); split; try discriminate.
  - rewrite <- (at_dollar_spec s Hnl). destruct (at_dollar s); split; congruence.
Qed.

Lemma match_tail_Some (s ds : str) :
  ~ final_newline s ->
  match_tail s = Some (Some ds) <-> digits ds /\ s = with_suffix [] ds.
Proof.
  intros Hnl. unfold match_tail.
  destruct (suffix_group s) as [[ds' r]|] eqn:E.
  - pose proof E as E'. apply suffix_group_spec in E' as [Hds ->].
    assert (Hr : at_dollar r = true <-> r = []).
    { apply at_dollar_spec. eapply no_final_newline_rest, Hnl. }
    destruct (at_dollar r) eqn:Er.
    + assert (r = []) as -> by now apply Hr. rewrite app_nil_r. split.
      * intros [= <-]. split; [exact Hds | reflexivity].
      * intros [_ Heq]. unfold with_suffix in Heq. cbn [app] in Heq.
        injection Heq as Heq. apply app_inj_tail in Heq as [-> _]. reflexivity.
    + split.
      * unfold with_suffix. cbn [app at_dollar py String.list_ascii_of_string].
        destruct (ds' ++ _); discriminate.
      * intros [Hds2 Heq]. exfalso.
        assert (suffix_group (with_suffix [] ds ++ []) = Some (ds, [])) as E2
          by now apply suffix_group_spec.
        rewrite app_nil_r, <- Heq, E in E2. injection E2 as _ ->.
        cbn [at_dollar] in Er. discriminate.
  - split.
    + destruct (at_dollar s); discriminate.
    + intros [Hds Heq]. exfalso.
      assert (suffix_group (with_suffix [] ds ++ []) = Some (ds, [])) as E2
        by now apply suffix_group_spec.
      rewrite app_nil_r, <- Heq, E in E2. discriminate.
Qed.

Lemma match_literal_spec (base s r : str) :
  match_literal base s = Some r <->
  exists b, s = b ++ r /\ fold_case b = fold_case base.
Proof.
  revert s. induction base as [|c base IH]; intros s; cbn [match_literal].
  - split.
    + intros [= ->]. exists []. split; reflexivity.
    + intros ([|? ?] & -> & Hb); [reflexivity | discriminate].
  - destruct s as [|a s].
    + split; [discriminate|]. intros ([|? ?] & Hs & Hb); discriminate.
    + destruct (ci_eqb c a) eqn:E.
      * apply ci_eqb_eq in E. rewrite IH. split.
        -- intros (b & -> & Hb). exists (a :: b). split; [reflexivity|].
           cbn [fold_case map]. unfold fold_case in Hb. congruence.
        -- intros ([|a' b] & Hs & Hb); [discriminate|].
           injection Hs as <- ->. injection Hb as _ Hb. eauto.
      * split; [discriminate|]. intros ([|a' b] & Hs & Hb); [discriminate|].
        injection Hs as <- ->. injection Hb as Ha _.
        apply not_true_iff_false in E. exfalso. apply E, ci_eqb_eq. congruence.
Qed.

Lemma fold_case_app (a b : str) : fold_case (a ++ b) = fold_case a ++ fold_case b.
Proof. apply map_app. Qed.

Lemma fold_case_suffix (ds : str) :
  forallb is_digit ds = true ->
  fold_case (with_suffix [] ds) = with_suffix [] ds.
Proof.
  intros H. pose proof (suffix_plain ds H) as Hp.
  induction (with_suffix [] ds) as [|c s IH]; [reflexivity|].
  cbn [forallb] in Hp. apply andb_true_iff in Hp as [Hc Hp].
  apply negb_true_iff in Hc. cbn [fold_case map].
  rewrite (lower_not_letter c Hc). f_equal. apply IH, Hp.
Qed.

Lemma with_suffix_split (base ds : str) :
  with_suffix base ds = base ++ with_suffix [] ds.
Proof. reflexivity. Qed.

(** The pattern matches a trimmed name without a group exactly when the
    name is the base up to case. *)
Lemma pattern_match_plain (base e : str) :
  ~ final_newline e ->
  pattern_match base e = Some None <-> fold_case e = fold_case base.
Proof.
  intros Hnl. unfold pattern_match. split.
  - destruct (match_literal base e) as [r|] eqn:E; [|discriminate].
    apply match_literal_spec in E as (b & -> & Hb). intros Ht.
    apply match_tail_None in Ht; [|eapply no_final_newline_rest, Hnl].
    subst r. now rewrite app_nil_r.
  - intros Heq.
    assert (match_literal base e = Some []) as ->.
    { apply match_literal_spec. exists e. now rewrite app_nil_r. }
    reflexivity.
Qed.

(** It matches with the group holding [ds] exactly when the name is the
    base up to case followed by [" (ds)"]. *)
Lemma pattern_match_suffixed (base e ds : str) :
  ~ final_newline e ->
  pattern_match base e = Some (Some ds) <->
  digits ds /\ fold_case e = fold_case (with_suffix base ds).
Proof.
  intros Hnl. unfold pattern_match. split.
  - destruct (match_literal base e) as [r|] eqn:E; [|discriminate].
    apply match_literal_spec in E as (b & -> & Hb). intros Ht.
    apply match_tail_Some in Ht as [Hds ->]; [|eapply no_final_newline_rest, Hnl].
    split; [exact Hds|].
    rewrite (with_suffix_split base ds), !fold_case_app, Hb. reflexivity.
  - intros [Hds Heq]. rewrite (with_suffix_split base ds), fold_case_app in Heq.
    unfold fold_case in Heq at 1. apply fmap_app_inv in Heq as (b & r & Hb & Hr & ->).
    assert (r = with_suffix [] ds) as ->.
    { apply fold_case_plain; [apply suffix_plain, Hds | symmetry; exact Hr]. }
    assert (match_literal base (b ++ with_suffix [] ds) = Some (with_suffix [] ds)) as ->.
    { apply match_literal_spec. exists b. split; [reflexivity | symmetry; exact Hb]. }
    apply match_tail_Some; [eapply no_final_newline_rest, Hnl | auto].
Qed.

Lemma name_match_spec (s b : str) (g : option str) :
  ~ final_newline s ->
  name_match s = Some (b, g) ->
  match g with
  | Some ds => digits ds /\ s = with_suffix b ds
  | None => s = b
  end.
Proof.
  revert b. induction s as [|c s IH]; intros b Hnl; cbn [name_match].
  - cbn. intros [= <- <-]. reflexivity.
  - destruct (match_tail (c :: s)) as [g'|] eqn:Et.
    + intros [= <- <-]. destruct g' as [ds|].
      * apply match_tail_Some in Et; [exact Et | exact Hnl].
      * apply match_tail_None in Et; [discriminate | exact Hnl].
    + destruct (Ascii.eqb c "010"); [discriminate|].
      destruct (name_match s) as [[b' g']|] eqn:En; [|discriminate].
      intros [= <- <-].
      assert (Hnl' : ~ final_newline s)
        by apply (no_final_newline_rest [c] s Hnl).
      specialize (IH b' Hnl' eq_refl). destruct g' as [ds|].
      * destruct IH as [Hds ->]. split; [exact Hds | reflexivity].
      * now subst.
Qed.

(** ** The scan of the existing names *)

Lemma occupies_match (base e : str) (k : N) :
  occupies base e k ->
  (pattern_match base (strip e) = Some None /\ k = 1%N) \/
  (exists ds, digits ds /\ pattern_match base (strip e) = Some (Some ds) /\ k = int ds).
Proof.
  pose proof (strip_no_final_newline e) as Hnl.
  intros [Hp|ds Hds Hs].
  - left. split; [apply (pattern_match_plain _ _ Hnl), Hp | reflexivity].
  - right. exists ds. split; [exact Hds|]. split; [|reflexivity].
    apply (pattern_match_suffixed _ _ _ Hnl). auto.
Qed.

Lemma occupies_unique (base e : str) (k k' : N) :
  occupies base e k -> occupies base e k' -> k = k'.
Proof.
  intros H H'. apply occupies_match in H, H'.
  destruct H as [[H ->]|(ds & _ & H & ->)], H' as [[H' ->]|(ds' & _ & H' & ->)];
    congruence.
Qed.

Lemma scan_step_cases (base : str) (ms : N) (e : str) :
  (scan_step base ms e = ms /\ forall k, ~ occupies base e k) \/
  (exists k, occupies base e k /\ scan_step base ms e = N.max ms (k + 1)).
Proof.
  pose proof (strip_no_final_newline e) as Hnl. unfold scan_step.
  destruct (pattern_match base (strip e)) as [[ds|]|] eqn:E.
  - right. apply (pattern_match_suffixed _ _ _ Hnl) in E as [Hds Hf].
    exists (int ds). split; [now apply occupies_suffixed|].
    destruct ds as [|d ds]; [destruct Hds as [[] _]; reflexivity | reflexivity].
  - right. exists 1%N. split; [|reflexivity].
    apply occupies_plain, (pattern_match_plain _ _ Hnl), E.
  - left. split; [reflexivity|]. intros k Hk.
    apply occupies_match in Hk as [[Hk _]|(ds & _ & Hk & _)]; congruence.
Qed.

Lemma scan_fold (base : str) (existing : list str) (ms : N) :
  let m := fold_left (scan_step base) existing ms in
  (ms <= m)%N /\
  (forall e k, e ∈ existing -> occupies base e k -> (k + 1 <= m)%N) /\
  (m = ms \/ exists e k, e ∈ existing /\ occupies base e k /\ m = (k + 1)%N).
Proof.
  revert ms. induction existing as [|e existing IH]; intros ms; cbn [fold_left].
  - split; [lia|]. split; [intros e k H; inversion H | now left].
  - destruct (IH (scan_step base ms e)) as (Hle & Hub & Hwit).
    set (m := fold_left (scan_step base) existing (scan_step base ms e)) in *.
    destruct (scan_step_cases base ms e) as [[Hs Hno]|(k0 & Hk0 & Hs)];
      rewrite Hs in *.
    + split; [exact Hle|]. split.
      * intros e' k He' Hk. apply elem_of_cons in He' as [->|He'].
        -- now apply Hno in Hk.
        -- apply (Hub e' k He' Hk).
      * destruct Hwit as [Hm|(e' & k & He' & Hk & Hm)]; [now left|].
        right. exists e', k. split; [now right | auto].
    + split; [lia|]. split.
      * intros e' k He' Hk. apply elem_of_cons in He' as [->|He'].
        -- rewrite (occupies_unique _ _ _ _ Hk Hk0). lia.
        -- apply (Hub e' k He' Hk).
      * destruct Hwit as [Hm|(e' & k & He' & Hk & Hm)].
        -- destruct (N.max_spec ms (k0 + 1)) as [[_ Hmax]|[_ Hmax]];
             rewrite Hmax in Hm; [|now left].
           right. exists e, k0. split; [left | auto].
        -- right. exists e', k. split; [now right | auto].
Qed.

(** ** The base name *)

Lemma lstrip_spaces (s : str) :
  exists p, s = p ++ lstrip s /\ forallb is_space p = true.
Proof.
  induction s as [|c s (p & Hs & Hp)]; [exists []; split; reflexivity|].
  cbn [lstrip]. destruct (is_space c) eqn:E.
  - exists (c :: p). cbn [app forallb]. rewrite E, Hp. split; [congruence | reflexivity].
  - exists []. split; reflexivity.
Qed.

Lemma strip_head (s : str) (c : ascii) (r : str) :
  strip s = c :: r -> is_space c = false.
Proof.
  unfold strip, rstrip. intros H.
  destruct (lstrip_spaces (rev (lstrip s))) as (p & Hs & _).
  apply (f_equal (@rev ascii)) in Hs. rewrite rev_involutive, rev_app_distr, H in Hs.
  cbn [app] in Hs. apply (lstrip_head s c _ Hs).
Qed.

Lemma strip_trimmed (s : str) : trimmed (strip s).
Proof.
  unfold trimmed. destruct (strip s) as [|c r] eqn:E; [reflexivity|].
  destruct (last (c :: r)) as [z|] eqn:Ez; [|apply last_None in Ez; discriminate].
  apply (strip_fixed c r z); [apply (strip_head s c r E) | exact Ez |].
  apply (strip_last s). now rewrite E.
Qed.

Lemma base_name_of_trimmed (name : str) : trimmed (base_name_of name).
Proof.
  unfold base_name_of. destruct (name_match (strip name)) as [[b g]|];
    apply strip_trimmed.
Qed.

Lemma ends_with_suffix_intro (b ds : str) :
  digits ds -> ends_with_suffix (with_suffix b ds) = true.
Proof.
  intros Hds. unfold ends_with_suffix. apply existsb_exists.
  exists (length b). split.
  - apply in_seq. unfold with_suffix. rewrite !length_app. cbn [length py String.list_ascii_of_string]. lia.
  - rewrite with_suffix_split, drop_app_length.
    assert (suffix_group (with_suffix [] ds ++ []) = Some (ds, [])) as E
      by now apply suffix_group_spec.
    rewrite app_nil_r in E. now rewrite E.
Qed.

Lemma ends_with_suffix_elim (s : str) :
  ends_with_suffix s = true -> exists b ds, digits ds /\ s = with_suffix b ds.
Proof.
  unfold ends_with_suffix. intros H. apply existsb_exists in H as (k & _ & Hk).
  destruct (suffix_group (drop k s)) as [[ds [|? ?]]|] eqn:E; try discriminate.
  apply suffix_group_spec in E as [Hds E]. rewrite app_nil_r in E.
  exists (take k s), ds. split; [exact Hds|].
  rewrite with_suffix_split, <- E. symmetry. apply take_drop.
Qed.

Lemma base_name_of_plain (base : str) :
  trimmed base -> unsuffixed base -> base_name_of base = base.
Proof.
  intros Htr Hun. unfold base_name_of. rewrite Htr.
  destruct (name_match base) as [[b g]|] eqn:E; [|reflexivity].
  apply name_match_spec in E; [|rewrite <- Htr; apply strip_no_final_newline].
  destruct g as [ds|].
  - destruct E as [Hds E]. unfold unsuffixed in Hun.
    rewrite E, (ends_with_suffix_intro b ds Hds) in Hun. discriminate.
  - now subst b.
Qed.

(** C2, as the code has it: with no name of the existing list on a slot
    of the base from 1 up (the base itself is slot 1, the base with the
    suffix [(k)] is slot [k]), the trimmed base is returned; otherwise the
    base is returned with the suffix [(m)], where [m] is one more than the
    highest occupied slot, at least 2 and above every occupied slot. *)
Theorem unique_name_suffix (name : str) (existing : list str) :
  let base := base_name_of name in
  let result := generate_unique_name name existing in
  trimmed base /\
  ((forall e k, e ∈ existing -> occupies base e k -> k = 0%N) -> result = base) /\
  (forall e k, e ∈ existing -> occupies base e k -> (1 <= k)%N ->
     exists m,
       result = with_suffix base (str_of_int m) /\
       (2 <= m)%N /\
       (forall e' k', e' ∈ existing -> occupies base e' k' -> (k' < m)%N) /\
       (exists e' k', e' ∈ existing /\ occupies base e' k' /\ m = (k' + 1)%N)).
Proof.
  cbv zeta. split; [apply base_name_of_trimmed|].
  unfold generate_unique_name, scan.
  destruct (scan_fold (base_name_of name) existing 1) as (Hle & Hub & Hwit).
  set (m := fold_left (scan_step (base_name_of name)) existing 1%N) in *.
  split.
  - intros Hfree. destruct Hwit as [->|(e & k & He & Hk & Hm)]; [reflexivity|].
    rewrite (Hfree e k He Hk) in Hm. now rewrite Hm.
  - intros e k He Hk Hk1. pose proof (Hub e k He Hk) as Hkm.
    destruct (N.eqb_spec m 1) as [Hm|Hm]; [lia|].
    exists m. split; [reflexivity|]. split; [lia|]. split.
    + intros e' k' He' Hk'. specialize (Hub e' k' He' Hk'). lia.
    + destruct Hwit as [Hm'|Hw]; [contradiction | exact Hw].
Qed.

Lemma unique_name_suffix_witness :
  let existing := [py "Sam"; py "Sam (5)"] in
  let base := base_name_of (py "Sam") in
  py "Sam (5)" ∈ existing /\ occupies base (py "Sam (5)") 5 /\ (1 <= 5)%N /\
  exists m,
    generate_unique_name (py "Sam") existing = with_suffix base (str_of_int m) /\
    (2 <= m)%N /\
    (forall e' k', e' ∈ existing -> occupies base e' k' -> (k' < m)%N) /\
    (exists e' k', e' ∈ existing /\ occupies base e' k' /\ m = (k' + 1)%N).
Proof.
  assert (Hin : py "Sam (5)" ∈ [py "Sam"; py "Sam (5)"]) by (right; left).
  assert (Hocc : occupies (base_name_of (py "Sam")) (py "Sam (5)") 5).
  { apply (occupies_suffixed (py "Sam") (py "Sam (5)") (py "5"));
      [split; [discriminate | reflexivity] | reflexivity]. }
  split; [exact Hin|]. split; [exact Hocc|]. split; [lia|].
  apply (proj2 (proj2 (unique_name_suffix (py "Sam") [py "Sam"; py "Sam (5)"]))
           (py "Sam (5)") 5%N Hin Hocc).
  lia.
Defined.

Example unique_name_suffix_gap :
  generate_unique_name (py "Sam") [py "Sam"; py "sam (5)"; py "Sam (0)"]
  = py "Sam (6)".
Proof. reflexivity. Qed.

(** C2 as stated fails: against ["Sam"; "Sam (5)"] the name returned for
    ["Sam"] carries the suffix 6, although 2 is at least 2, smaller, and
    ["Sam (2)"] collides with no existing name. *)
Lemma unique_name_not_smallest :
  generate_unique_name (py "Sam") [py "Sam"; py "Sam (5)"]
  = with_suffix (py "Sam") (str_of_int 6) /\
  (2 <= 2 < 6)%N /\
  forall e, e ∈ [py "Sam"; py "Sam (5)"] ->
            ~ collides (with_suffix (py "Sam") (str_of_int 2)) e.
Proof.
  split; [reflexivity|]. split; [lia|].
  intros e He Hc. unfold collides in Hc.
  apply elem_of_cons in He as [->|He];
    [|apply list_elem_of_singleton in He; subst e]; vm_compute in Hc; discriminate.
Qed.

(** ** Collisions *)

(** With a base that is not empty the name returned collides with no
    existing name. *)
Lemma unique_name_fresh (name : str) (existing : list str) (e : str) :
  base_name_of name <> [] -> e ∈ existing ->
  ~ collides (generate_unique_name name existing) e.
Proof.
  intros Hne He. pose proof (base_name_of_trimmed name) as Htr.
  unfold generate_unique_name, scan, collides.
  destruct (scan_fold (base_name_of name) existing 1) as (_ & Hub & _).
  set (base := base_name_of name) in *.
  set (m := fold_left (scan_step base) existing 1%N) in *.
  destruct (N.eqb_spec m 1) as [Hm|Hm]; intros Hc.
  - rewrite Htr in Hc.
    specialize (Hub e 1%N He (occupies_plain _ _ (eq_sym Hc))). lia.
  - change (base ++ py " (" ++ str_of_int m ++ py ")")
      with (with_suffix base (str_of_int m)) in Hc.
    rewrite (with_suffix_trimmed base _ Hne Htr) in Hc.
    pose proof (occupies_suffixed base e (str_of_int m)
                  (str_of_int_digits m) (eq_sym Hc)) as Hocc.
    rewrite int_str_of_int in Hocc. specialize (Hub e m He Hocc). lia.
Qed.

(** C4: a name of blanks passes the form's test for a non-empty name and
    has the empty base.  Called three times with it, each time against the
    names returned before, [generate_unique_name] returns [" (2)"] twice:
    the third name is in the existing list it was computed against. *)
Theorem unique_name_collides_on_blank :
  register_again 2 (py " ") [] = [py ""; py " (2)"] /\
  generate_unique_name (py " ") [py ""; py " (2)"] = py " (2)" /\
  py " (2)" ∈ [py ""; py " (2)"] /\
  collides (generate_unique_name (py " ") [py ""; py " (2)"]) (py " (2)").
Proof.
  split; [reflexivity|]. split; [reflexivity|]. split; [right; left | reflexivity].
Qed.

(** ** The same name again and again *)

Section Again.
Variable base : str.
Hypothesis base_not_empty : base <> [].
Hypothesis base_trimmed : trimmed base.

Lemma numbered_occupies (k : nat) :
  (1 <= k)%nat -> occupies base (numbered base k) (N.of_nat k).
Proof.
  intros Hk. destruct k as [|[|k]]; [lia | |].
  - apply occupies_plain. cbn [numbered]. now rewrite base_trimmed.
  - set (n := S (S k)). change (numbered base n)
      with (with_suffix base (str_of_int (N.of_nat n))).
    rewrite <- (int_str_of_int (N.of_nat n)) at 2.
    apply occupies_suffixed; [apply str_of_int_digits|].
    now rewrite (with_suffix_trimmed base _ base_not_empty base_trimmed).
Qed.

Lemma scan_numbered (j : nat) :
  scan base (map (numbered base) (seq 1 j))
  = match j with O => 1%N | _ => (N.of_nat j + 1)%N end.
Proof.
  destruct j as [|j]; [reflexivity|]. unfold scan.
  destruct (scan_fold base (map (numbered base) (seq 1 (S j))) 1)
    as (Hle & Hub & Hwit).
  set (m := fold_left _ _ _) in *.
  assert (Hlow : (N.of_nat (S j) + 1 <= m)%N).
  { apply (Hub (numbered base (S j))); [|apply numbered_occupies; lia].
    apply list_elem_of_fmap. exists (S j). split; [reflexivity|].
    apply elem_of_seq. lia. }
  destruct Hwit as [Hm|(e & k & He & Hk & Hm)]; [lia|].
  apply list_elem_of_fmap in He as (i & -> & Hi). apply elem_of_seq in Hi.
  rewrite (occupies_unique _ _ _ _ Hk (numbered_occupies i ltac:(lia))) in Hm.
  lia.
Qed.

Hypothesis base_unsuffixed : unsuffixed base.

Lemma unique_name_numbered (j : nat) :
  generate_unique_name base (map (numbered base) (seq 1 j))
  = numbered base (S j).
Proof.
  unfold generate_unique_name.
  rewrite (base_name_of_plain base base_trimmed base_unsuffixed), scan_numbered.
  destruct j as [|j]; [reflexivity|].
  destruct (N.eqb_spec (N.of_nat (S j) + 1) 1) as [H|_]; [lia|].
  change (numbered base (S (S j)))
    with (with_suffix base (str_of_int (N.of_nat (S (S j))))).
  unfold with_suffix. do 3 f_equal. f_equal. lia.
Qed.

Lemma register_again_numbered (n j : nat) :
  register_again n base (map (numbered base) (seq 1 j))
  = map (numbered base) (seq 1 (j + n)).
Proof.
  revert j. induction n as [|n IH]; intros j; cbn [register_again].
  - now rewrite Nat.add_0_r.
  - rewrite unique_name_numbered.
    replace (map (numbered base) (seq 1 j) ++ [numbered base (S j)])
      with (map (numbered base) (seq 1 (S j)))
      by (rewrite seq_S, map_app; reflexivity).
    rewrite IH. do 2 f_equal. lia.
Qed.
End Again.

(** C8, as the code has it: for a base that is not empty, has no
    whitespace at either end and no suffix [" (k)"], [n] calls with the
    base, each against the names returned so far, return the base, then the
    base with the suffixes (2), (3), ..., (n). *)
Theorem unique_names_in_sequence (base : str) (n : nat) :
  base <> [] -> trimmed base -> unsuffixed base -> (1 <= n)%nat ->
  register_again n base [] = map (numbered base) (seq 1 n).
Proof.
  intros Hne Htr Hun _.
  apply (register_again_numbered base Hne Htr Hun n 0).
Qed.

Lemma unique_names_in_sequence_witness :
  py "Sam" <> [] /\ trimmed (py "Sam") /\ unsuffixed (py "Sam") /\ (1 <= 3)%nat /\
  register_again 3 (py "Sam") [] = [py "Sam"; py "Sam (2)"; py "Sam (3)"].
Proof.
  split; [discriminate|]. split; [reflexivity|]. split; [reflexivity|].
  split; [lia|].
  apply (unique_names_in_sequence (py "Sam") 3);
    [discriminate | reflexivity | reflexivity | lia].
Defined.

(** C8 as stated fails on bases it admits.  The empty name has no suffix
    and yields [""], [" (2)"] and [" (2)"] again; a name with a leading
    blank has no suffix and yields the names of its trimmed form. *)
Lemma unique_names_sequence_fails :
  (unsuffixed (py "") /\
   register_again 3 (py "") [] = [py ""; py " (2)"; py " (2)"] /\
   register_again 3 (py "") [] <> map (numbered (py "")) (seq 1 3)) /\
  (unsuffixed (py " Sam") /\
   register_again 2 (py " Sam") [] = [py "Sam"; py "Sam (2)"] /\
   register_again 2 (py " Sam") [] <> map (numbered (py " Sam")) (seq 1 2)).
Proof.
  repeat split; try reflexivity; vm_compute; discriminate.
Qed.

(** * Further properties *)

(** ** Names that come out of [generate_unique_name] *)

Lemma lstrip_nil_spaces (s : str) : lstrip s = [] -> forallb is_space s = true.
Proof.
  intros H. destruct (lstrip_spaces s) as (p & Hs & Hp).
  rewrite H, app_nil_r in Hs. now subst p.
Qed.

Lemma strip_keeps_head (c : ascii) (s : str) :
  is_space c = false -> exists r, strip (c :: s) = c :: r.
Proof.
  intros Hc. unfold strip. rewrite (lstrip_fixed c s Hc). unfold rstrip.
  destruct (lstrip_spaces (rev (c :: s))) as (p & Hs & _).
  apply (f_equal (@rev ascii)) in Hs. rewrite rev_involutive, rev_app_distr in Hs.
  destruct (rev (lstrip (rev (c :: s)))) as [|a r] eqn:E.
  - exfalso. apply (f_equal (@rev ascii)) in E. rewrite rev_involutive in E.
    cbn [rev] in E. apply lstrip_nil_spaces in E.
    rewrite forallb_forall in E. specialize (E c).
    rewrite E in Hc; [discriminate|]. cbn [rev]. apply in_or_app. right. now left.
  - cbn [app] in Hs. injection Hs as <- _. eauto.
Qed.

Lemma base_name_of_nil (name : str) :
  base_name_of name = [] <-> strip name = [].
Proof.
  unfold base_name_of. split.
  - intros H. destruct (strip name) as [|c s] eqn:Es; [reflexivity|]. exfalso.
    pose proof (strip_head name c s Es) as Hc.
    assert (Hnl : ~ final_newline (c :: s))
      by (rewrite <- Es; apply strip_no_final_newline).
    destruct (name_match (c :: s)) as [[b g]|] eqn:En; [|discriminate].
    apply (name_match_spec _ _ _ Hnl) in En.
    assert (Hb : exists b', b = c :: b').
    { destruct g as [ds|].
      - destruct En as [_ En]. destruct b as [|c' b'].
        + unfold with_suffix in En. cbn [app py String.list_ascii_of_string] in En.
          injection En as -> _. discriminate.
        + unfold with_suffix in En. cbn [app] in En. injection En as <- _. eauto.
      - subst b. eauto. }
    destruct Hb as [b' ->]. destruct (strip_keeps_head c b' Hc) as [r Hr].
    rewrite Hr in H. discriminate.
  - intros ->. reflexivity.
Qed.

Lemma unique_name_trimmed (name : str) (existing : list str) :
  base_name_of name <> [] -> trimmed (generate_unique_name name existing).
Proof.
  intros Hne. unfold generate_unique_name.
  destruct (N.eqb _ 1); [apply base_name_of_trimmed|].
  apply (with_suffix_trimmed _ _ Hne), base_name_of_trimmed.
Qed.

Lemma unique_name_not_nil (name : str) (existing : list str) :
  base_name_of name <> [] -> generate_unique_name name existing <> [].
Proof.
  intros Hne. unfold generate_unique_name.
  destruct (N.eqb _ 1); [exact Hne|].
  destruct (base_name_of name); [contradiction | discriminate].
Qed.

(** X1: for a name that is not blank, the name returned has no whitespace
    at either end, is not empty, and collides, up to case and surrounding
    whitespace, with no name of the existing list. *)
Theorem fresh_name_for_nonblank (name : str) (existing : list str) :
  strip name <> [] ->
  let result := generate_unique_name name existing in
  trimmed result /\ result <> [] /\
  forall e, e ∈ existing -> ~ collides result e.
Proof.
  intros Hnb. assert (Hne : base_name_of name <> [])
    by (intros H; apply Hnb, base_name_of_nil, H).
  cbv zeta. split; [apply unique_name_trimmed, Hne|].
  split; [apply unique_name_not_nil, Hne|].
  intros e He. apply (unique_name_fresh name existing e Hne He).
Qed.

Lemma fresh_name_for_nonblank_witness :
  strip (py " sam (4) ") <> [] /\
  let result := generate_unique_name (py " sam (4) ") [py "Sam"; py "SAM (2) "] in
  trimmed result /\ result <> [] /\
  forall e, e ∈ [py "Sam"; py "SAM (2) "] -> ~ collides result e.
Proof.
  split; [discriminate|].
  apply (fresh_name_for_nonblank (py " sam (4) ") [py "Sam"; py "SAM (2) "]).
  discriminate.
Defined.

(** ** What the first pattern takes for the base *)

Lemma suffix_chars (ds : str) (c : ascii) :
  forallb is_digit ds = true -> c ∈ with_suffix [] ds ->
  c = " " \/ c = "(" \/ c = ")" \/ is_digit c = true.
Proof.
  intros Hds. unfold with_suffix. cbn [app py String.list_ascii_of_string].
  rewrite !elem_of_cons, elem_of_app, list_elem_of_singleton.
  intros [->|[->|[Hc| ->]]]; auto.
  do 3 right. rewrite forallb_forall in Hds. apply Hds, list_elem_of_In, Hc.
Qed.

Lemma suffix_no_newline (ds : str) :
  forallb is_digit ds = true -> "010" ∉ with_suffix [] ds.
Proof.
  intros Hds Hin. apply (suffix_chars ds _ Hds) in Hin as [H|[H|[H|H]]];
    discriminate.
Qed.

Lemma with_suffix_no_final_newline (b ds : str) : ~ final_newline (with_suffix b ds).
Proof.
  unfold final_newline, with_suffix. rewrite !app_assoc.
  change (py ")") with [")"]. rewrite last_snoc. discriminate.
Qed.

(** A suffix with something before it is not a suffix taken alone. *)
Lemma with_suffix_not_bare (c : ascii) (b ds ds' : str) :
  digits ds' -> with_suffix (c :: b) ds <> with_suffix [] ds'.
Proof.
  intros [_ Hds'] Heq.
  assert (Hlen : length ds' = S (length b + length ds)).
  { apply (f_equal (@length ascii)) in Heq. unfold with_suffix in Heq.
    cbn [app py String.list_ascii_of_string length] in Heq.
    rewrite ?length_app in Heq. cbn [length] in Heq.
    rewrite ?length_app in Heq. cbn [length] in Heq. lia. }
  assert (Hl : (with_suffix (c :: b) ds : list ascii) !! (length (c :: b) + 1)%nat
               = Some "(").
  { unfold with_suffix. rewrite lookup_app_r by lia.
    replace (length (c :: b) + 1 - length (c :: b))%nat with 1%nat by lia.
    reflexivity. }
  rewrite Heq in Hl.
  replace (length (c :: b) + 1)%nat with (S (S (length b))) in Hl
    by (cbn [length]; lia).
  change ((ds' ++ [")"]) !! length b = Some "(") in Hl.
  rewrite lookup_app_l in Hl by lia.
  apply list_elem_of_lookup_2, list_elem_of_In in Hl.
  rewrite forallb_forall in Hds'. apply Hds' in Hl. discriminate.
Qed.

Lemma name_match_suffixed (b ds : str) :
  "010" ∉ b -> digits ds ->
  name_match (with_suffix b ds) = Some (b, Some ds).
Proof.
  intros Hnl Hds. induction b as [|c b IH].
  - destruct (with_suffix [] ds) as [|a s] eqn:E; [discriminate|].
    cbn [name_match]. rewrite <- E.
    assert (match_tail (with_suffix [] ds) = Some (Some ds)) as ->; [|reflexivity].
    apply match_tail_Some; [apply with_suffix_no_final_newline | auto].
  - apply not_elem_of_cons in Hnl as [Hc Hnl]. specialize (IH Hnl).
    change (with_suffix (c :: b) ds) with (c :: with_suffix b ds) in *.
    cbn [name_match].
    assert (Hnf : ~ final_newline (c :: with_suffix b ds))
      by apply (with_suffix_no_final_newline (c :: b) ds).
    destruct (match_tail (c :: with_suffix b ds)) as [[ds'|]|] eqn:E.
    + apply (match_tail_Some _ _ Hnf) in E as [Hds' E].
      now apply (with_suffix_not_bare c b ds ds') in E.
    + apply (match_tail_None _ Hnf) in E. discriminate.
    + destruct (Ascii.eqb_spec c "010") as [->|_]; [contradiction|].
      now rewrite IH.
Qed.

(** X2: a name that, once trimmed, is a part without newline followed by
    a suffix [" (k)"] has the trimmed part for its base: the suffix typed
    is dropped, and against no existing name the trimmed part is returned. *)
Theorem typed_suffix_is_dropped (name b ds : str) :
  strip name = with_suffix b ds -> digits ds -> "010" ∉ b ->
  base_name_of name = strip b /\ generate_unique_name name [] = strip b.
Proof.
  intros Hs Hds Hnl.
  assert (H : base_name_of name = strip b).
  { unfold base_name_of. now rewrite Hs, (name_match_suffixed b ds Hnl Hds). }
  split; [exact H|]. unfold generate_unique_name. now rewrite H.
Qed.

Lemma typed_suffix_is_dropped_witness :
  strip (py "  Sam  (12) ") = with_suffix (py "Sam ") (py "12") /\
  digits (py "12") /\ ("010" ∉ py "Sam ") /\
  base_name_of (py "  Sam  (12) ") = py "Sam" /\
  generate_unique_name (py "  Sam  (12) ") [] = py "Sam".
Proof.
  assert (H1 : strip (py "  Sam  (12) ") = with_suffix (py "Sam ") (py "12"))
    by reflexivity.
  assert (H2 : digits (py "12")) by (split; [discriminate | reflexivity]).
  assert (H3 : "010" ∉ py "Sam ").
  { intros H. repeat (apply elem_of_cons in H as [H|H]; [discriminate|]).
    inversion H. }
  split; [exact H1|]. split; [exact H2|]. split; [exact H3|].
  apply (typed_suffix_is_dropped (py "  Sam  (12) ") (py "Sam ") (py "12") H1 H2 H3).
Defined.

Lemma name_match_newline (s : str) :
  ~ final_newline s -> "010" ∈ s -> name_match s = None.
Proof.
  induction s as [|c s IH]; intros Hnf Hin; [inversion Hin|].
  cbn [name_match].
  destruct (match_tail (c :: s)) as [[ds|]|] eqn:E.
  - apply (match_tail_Some _ _ Hnf) in E as [[_ Hds] E]. rewrite E in Hin.
    now apply suffix_no_newline in Hin.
  - apply (match_tail_None _ Hnf) in E. discriminate.
  - destruct (Ascii.eqb_spec c "010") as [->|Hc]; [reflexivity|].
    apply elem_of_cons in Hin as [Hin|Hin]; [congruence|].
    rewrite IH; [reflexivity | apply (no_final_newline_rest [c] s Hnf) | exact Hin].
Qed.

(** X3: a name with a newline inside is not matched by the first pattern,
    and its base is the whole trimmed name: a suffix [" (k)"] at its end
    stays, and a number is added after it. *)
Theorem newline_keeps_suffix (name : str) (existing : list str) :
  "010" ∈ strip name ->
  base_name_of name = strip name /\
  (generate_unique_name name existing = strip name \/
   exists m, (2 <= m)%N /\
     generate_unique_name name existing = with_suffix (strip name) (str_of_int m)).
Proof.
  intros Hin.
  assert (H : base_name_of name = strip name).
  { unfold base_name_of.
    now rewrite (name_match_newline _ (strip_no_final_newline name) Hin). }
  split; [exact H|]. unfold generate_unique_name. rewrite H.
  destruct (N.eqb_spec (scan (strip name) existing) 1) as [_|Hm]; [now left|].
  right. exists (scan (strip name) existing). split; [|reflexivity].
  destruct (scan_fold (strip name) existing 1) as (Hle & _).
  unfold scan in *. lia.
Qed.

Lemma newline_keeps_suffix_witness :
  let name := py "a" ++ ["010"] ++ py "b (2)" in
  "010" ∈ strip name /\
  base_name_of name = name /\
  generate_unique_name name [name] = with_suffix name (py "2").
Proof.
  set (name := py "a" ++ ["010"] ++ py "b (2)"). cbv zeta.
  assert (Hin : "010" ∈ strip name) by (right; left).
  split; [exact Hin|].
  split; [exact (proj1 (newline_keeps_suffix name [name] Hin)) | reflexivity].
Defined.

(** ** The existing names count as a set, up to case and whitespace *)

Lemma pattern_match_fold_case (base s s' : str) :
  ~ final_newline s -> ~ final_newline s' -> fold_case s = fold_case s' ->
  pattern_match base s = pattern_match base s'.
Proof.
  assert (Hone : forall a b, ~ final_newline a -> ~ final_newline b ->
            fold_case a = fold_case b -> forall g,
            pattern_match base a = Some g -> pattern_match base b = Some g).
  { intros a b Ha Hb Hab [ds|] E.
    - apply (pattern_match_suffixed _ _ _ Ha) in E as [Hds E].
      apply (pattern_match_suffixed _ _ _ Hb). split; [exact Hds | congruence].
    - apply (pattern_match_plain _ _ Ha) in E.
      apply (pattern_match_plain _ _ Hb). congruence. }
  intros Hs Hs' Heq.
  destruct (pattern_match base s) as [g|] eqn:E.
  - symmetry. apply (Hone s s' Hs Hs' Heq g E).
  - destruct (pattern_match base s') as [g|] eqn:E'; [|reflexivity].
    rewrite (Hone s' s Hs' Hs (eq_sym Heq) g E') in E. discriminate.
Qed.

Lemma scan_step_collides (base : str) (ms : N) (e e' : str) :
  collides e e' -> scan_step base ms e = scan_step base ms e'.
Proof.
  intros H. unfold scan_step.
  now rewrite (pattern_match_fold_case base (strip e) (strip e')
                 (strip_no_final_newline e) (strip_no_final_newline e') H).
Qed.

Lemma scan_step_floor (base : str) (ms : N) (e : str) :
  scan_step base ms e = N.max ms (floor_of base e).
Proof.
  unfold floor_of, scan_step.
  destruct (pattern_match base (strip e)) as [[[|d ds]|]|]; lia.
Qed.

Lemma scan_bounds (base : str) (existing : list str) (ms : N) :
  let m := fold_left (scan_step base) existing ms in
  (ms <= m)%N /\
  (forall e, e ∈ existing -> (floor_of base e <= m)%N) /\
  (m = ms \/ exists e, e ∈ existing /\ m = floor_of base e).
Proof.
  revert ms. induction existing as [|e existing IH]; intros ms; cbn [fold_left].
  - split; [lia|]. split; [intros e H; inversion H | now left].
  - destruct (IH (scan_step base ms e)) as (Hle & Hub & Hwit).
    rewrite (scan_step_floor base ms e) in *.
    set (m := fold_left (scan_step base) existing _) in *.
    split; [lia|]. split.
    + intros e' He'. apply elem_of_cons in He' as [->|He']; [lia | auto].
    + destruct Hwit as [Hm|(e' & He' & Hm)].
      * destruct (N.max_spec ms (floor_of base e)) as [[_ Hmax]|[_ Hmax]];
          rewrite Hmax in Hm; [|now left].
        right. exists e. split; [left | exact Hm].
      * right. exists e'. split; [now right | exact Hm].
Qed.

Lemma scan_covered (base : str) (l l' : list str) :
  (forall e, e ∈ l -> exists e', e' ∈ l' /\ collides e e') ->
  (scan base l <= scan base l')%N.
Proof.
  intros Hcov. unfold scan.
  destruct (scan_bounds base l 1) as (_ & _ & Hwit).
  destruct (scan_bounds base l' 1) as (Hle' & Hub' & _).
  destruct Hwit as [->|(e & He & ->)]; [exact Hle'|].
  destruct (Hcov e He) as (e' & He' & Hc).
  unfold floor_of. rewrite (scan_step_collides base 0 e e' Hc). apply (Hub' e' He').
Qed.

(** X4: the name returned depends on the existing list only through the
    set of its names taken up to case and surrounding whitespace: two lists
    each of whose names collides with a name of the other give the same
    result, whatever the order, the repetitions, the case and the blanks. *)
Theorem existing_names_as_a_set (name : str) (l l' : list str) :
  (forall e, e ∈ l -> exists e', e' ∈ l' /\ collides e e') ->
  (forall e', e' ∈ l' -> exists e, e ∈ l /\ collides e' e) ->
  generate_unique_name name l = generate_unique_name name l'.
Proof.
  intros H H'. unfold generate_unique_name.
  assert (scan (base_name_of name) l = scan (base_name_of name) l') as ->;
    [|reflexivity].
  apply N.le_antisymm; apply scan_covered; assumption.
Qed.

Lemma existing_names_as_a_set_witness :
  let l := [py "sam"; py "Sam (2)"] in
  let l' := [py " SAM (2) "; py "Sam"; py "sAm"; py "sam (2)"] in
  (forall e, e ∈ l -> exists e', e' ∈ l' /\ collides e e') /\
  (forall e', e' ∈ l' -> exists e, e ∈ l /\ collides e' e) /\
  generate_unique_name (py "Sam") l = generate_unique_name (py "Sam") l'.
Proof.
  set (l := [py "sam"; py "Sam (2)"]).
  set (l' := [py " SAM (2) "; py "Sam"; py "sAm"; py "sam (2)"]). cbv zeta.
  assert (H : forall e, e ∈ l -> exists e', e' ∈ l' /\ collides e e').
  { intros e He. apply elem_of_cons in He as [->|He].
    - exists (py "Sam"). split; [right; left | reflexivity].
    - apply list_elem_of_singleton in He as ->.
      exists (py " SAM (2) "). split; [left | reflexivity]. }
  assert (H' : forall e', e' ∈ l' -> exists e, e ∈ l /\ collides e' e).
  { intros e' He'. repeat (apply elem_of_cons in He' as [->|He']).
    - exists (py "Sam (2)"). split; [right; left | reflexivity].
    - exists (py "sam"). split; [left | reflexivity].
    - exists (py "sam"). split; [left | reflexivity].
    - exists (py "Sam (2)"). split; [right; left | reflexivity].
    - inversion He'. }
  split; [exact H|]. split; [exact H'|].
  apply (existing_names_as_a_set (py "Sam") l l' H H').
Defined.

Lemma collides_refl (a : str) : collides a a.
Proof. reflexivity. Qed.

Lemma collides_sym (a b : str) : collides a b -> collides b a.
Proof. unfold collides. congruence. Qed.

(** ** Fair shares against the total and against the exact shares *)

Lemma unit_share_times_weight (ps : list Participant) (p : Participant) :
  0 < total_weight ps ->
  normalised_share ps * weight p == exact_fair_share ps p.
Proof.
  intros Hw. unfold normalised_share, exact_fair_share.
  rewrite (proj2 (Qltb_lt 0 (total_weight ps)) Hw). field. lra.
Qed.

Lemma rounded_sum_close (f : Participant -> Q) (ps : list Participant) :
  Qabs (sum (map (fun p => round2 (f p)) ps) - sum (map f ps))
  <= budget (length ps).
Proof.
  induction ps as [|p ps IH]; cbn [map length].
  - rewrite sum_nil, budget_0. apply Qabs_case; intros; lra.
  - rewrite !sum_cons, budget_S.
    pose proof (round2_close (f p)) as Hr.
    apply Qabs_Qle_condition in Hr, IH. apply Qabs_Qle_condition. lra.
Qed.

(** X5: when the total weight is positive, the fair shares that
    [compute_fair_shares] displays add up to the total spend, up to half a
    cent per participant. *)
Theorem fair_shares_conserve_total (participants : list Participant) :
  0 < total_weight participants ->
  Qabs (sum (map Fair_Share (snd (compute_fair_shares participants)))
        - fst (fst (compute_fair_shares participants)))
  <= budget (length participants).
Proof.
  intros Hw. unfold compute_fair_shares. cbn [fst snd].
  rewrite map_map. cbn [Fair_Share].
  pose proof (rounded_sum_close
                (fun p => normalised_share participants * weight p) participants) as H.
  assert (Hs : sum (map (fun p => normalised_share participants * weight p) participants)
               == total_spendings participants).
  { rewrite sum_scale. fold (total_weight participants). unfold normalised_share.
    rewrite (proj2 (Qltb_lt 0 (total_weight participants)) Hw). field. lra. }
  apply Qabs_Qle_condition in H. apply Qabs_Qle_condition. lra.
Qed.

Lemma fair_shares_conserve_total_witness :
  let ps := [person "A" 100 1; person "B" 0 1; person "C" 0 1] in
  0 < total_weight ps /\
  Qabs (sum (map Fair_Share (snd (compute_fair_shares ps)))
        - fst (fst (compute_fair_shares ps)))
  <= budget (length ps).
Proof.
  split; [reflexivity|].
  apply (fair_shares_conserve_total
           [person "A" 100 1; person "B" 0 1; person "C" 0 1]).
  reflexivity.
Defined.

(** X6: in exact arithmetic, when the total weight is positive, the fair
    share displayed for a participant is within half a cent of the exact
    share [total_spendings * weight / total_weight] that
    [compute_settlements] balances against. *)
Theorem displayed_share_near_exact (participants : list Participant)
  (k : nat) (p : Participant) (row : FairShareRow) :
  0 < total_weight participants ->
  participants !! k = Some p ->
  snd (compute_fair_shares participants) !! k = Some row ->
  Name row = name p /\
  Qabs (Fair_Share row - exact_fair_share participants p) <= half_cent.
Proof.
  intros Hw Hp Hrow. unfold compute_fair_shares in Hrow. cbn [snd] in Hrow.
  rewrite list_lookup_fmap, Hp in Hrow. injection Hrow as <-. cbn [Name Fair_Share].
  split; [reflexivity|].
  rewrite <- (unit_share_times_weight participants p Hw). apply round2_close.
Qed.

Lemma displayed_share_near_exact_witness :
  let ps := [person "A" 100 1; person "B" 0 1; person "C" 0 1] in
  exists row,
    0 < total_weight ps /\
    ps !! 1%nat = Some (person "B" 0 1) /\
    snd (compute_fair_shares ps) !! 1%nat = Some row /\
    Name row = py "B" /\
    Qabs (Fair_Share row - exact_fair_share ps (person "B" 0 1)) <= half_cent.
Proof.
  eexists. split; [reflexivity|]. split; [reflexivity|]. split; [reflexivity|].
  apply (displayed_share_near_exact
           [person "A" 100 1; person "B" 0 1; person "C" 0 1] 1 (person "B" 0 1));
    reflexivity.
Defined.

Lemma round2_zero (x : Q) : x == 0 -> round2 x == 0.
Proof.
  intros Hx. destruct (round2_rounds x) as (z & Hy & Hle & _).
  rewrite Hy. rewrite Hx in Hle.
  assert (Hz : z = 0%Z).
  { apply Qabs_Qle_condition in Hle. destruct Hle as [Hlo Hhi].
    assert (H1 : inject_Z z < inject_Z 1) by (change (inject_Z 1) with 1; lra).
    assert (H2 : inject_Z (-1) < inject_Z z) by (change (inject_Z (-1)) with (-1#1); lra).
    rewrite <- Zlt_Qlt in H1, H2. lia. }
  subst z. reflexivity.
Qed.

(** In exact arithmetic a participant of weight 0 is shown a fair share
    of 0, and so is every participant when the total weight is not
    positive: the unit share is then 0 and no division takes place.  The
    last part of the file has the same on floats. *)
Theorem fair_share_zero (participants : list Participant)
  (k : nat) (p : Participant) (row : FairShareRow) :
  participants !! k = Some p ->
  snd (compute_fair_shares participants) !! k = Some row ->
  weight p == 0 \/ ~ 0 < total_weight participants ->
  Fair_Share row == 0.
Proof.
  intros Hp Hrow Hcase. unfold compute_fair_shares in Hrow. cbn [snd] in Hrow.
  rewrite list_lookup_fmap, Hp in Hrow. injection Hrow as <-. cbn [Fair_Share].
  apply round2_zero. destruct Hcase as [Hw|Hw].
  - rewrite Hw. ring.
  - unfold normalised_share.
    destruct (Qltb 0 (total_weight participants)) eqn:E;
      [apply Qltb_lt in E; contradiction | ring].
Qed.

Lemma fair_share_zero_witness :
  let ps := [person "A" 100 1; person "B" 20 0] in
  exists row,
    ps !! 1%nat = Some (person "B" 20 0) /\
    snd (compute_fair_shares ps) !! 1%nat = Some row /\
    weight (person "B" 20 0) == 0 /\
    Fair_Share row == 0.
Proof.
  eexists. split; [reflexivity|]. split; [reflexivity|]. split; [reflexivity|].
  apply (fair_share_zero [person "A" 100 1; person "B" 20 0] 1 (person "B" 20 0));
    [reflexivity | reflexivity | left; reflexivity].
Defined.

(** ** How many transactions, between whom, of what amount *)





Lemma compute_settlements_Ok (ps : list Participant) (txs : list Transaction) :
  compute_settlements ps = Ok txs ->
  exists bal,
    balances_of ps = Ok bal /\
    txs = greedy (length (debtors_of bal) + length (creditors_of bal))
            (debtors_of bal) (creditors_of bal).
Proof.
  unfold compute_settlements. destruct (balances_of ps) as [bal| |] eqn:E;
    cbn [mbind outcome_bind]; try discriminate.
  rewrite settle_greedy. intros [= <-]. eauto.
Qed.



Lemma keys_determine (l : list (str * Q)) (k : str) (v v' : Q) :
  NoDup (map fst l) -> (k, v) ∈ l -> (k, v') ∈ l -> v = v'.
Proof.
  induction l as [|[k0 v0] l IH]; intros Hnd H H'; [inversion H|].
  cbn [map fst] in Hnd. apply NoDup_cons in Hnd as [Hk Hnd].
  assert (Hin : forall w, (k0, w) ∈ l -> False).
  { intros w Hw. apply Hk. apply list_elem_of_fmap. exists (k0, w). auto. }
  apply elem_of_cons in H as [H|H]; apply elem_of_cons in H' as [H'|H'].
  - congruence.
  - injection H as -> _. exfalso. eauto.
  - injection H' as -> _. exfalso. eauto.
  - apply (IH Hnd H H').
Qed.

Lemma balances_keys (ps : list Participant) (bal : list (str * Q)) :
  balances_of ps = Ok bal ->
  NoDup (map fst bal) /\ forall n, n ∈ map fst bal -> n ∈ map name ps.
Proof.
  intros H. apply balances_of_Ok_inv in H. subst bal. split.
  - apply dict_of_NoDup. constructor.
  - intros n Hn. apply dict_of_elem in Hn as [Hn|Hn]; [exact Hn | inversion Hn].
Qed.

(** X9: every transaction goes from the name of a participant to the
    name of another: nobody is asked to pay oneself, also when the list
    repeats names. *)
Theorem settlements_parties (participants : list Participant)
  (txs : list Transaction) (t : Transaction) :
  compute_settlements participants = Ok txs -> t ∈ txs ->
  From t ∈ map name participants /\ To t ∈ map name participants /\
  From t <> To t.
Proof.
  intros H Ht. apply compute_settlements_Ok in H as (bal & Hbal & ->).
  destruct (balances_keys _ _ Hbal) as [Hnd Hsub].
  apply greedy_parties in Ht as [HF HT].
  apply list_elem_of_fmap in HF as ([n d] & Hn & HF).
  apply list_elem_of_fmap in HT as ([n' c] & Hn' & HT).
  cbn [fst] in Hn, Hn'. rewrite Hn, Hn'. clear Hn Hn'.
  apply debtors_of_elem in HF as (b & HF & Hb & _).
  apply creditors_of_elem in HT as [HT Hc].
  split; [apply Hsub, list_elem_of_fmap; exists (n, b); auto|].
  split; [apply Hsub, list_elem_of_fmap; exists (n', c); auto|].
  intros ->. rewrite (keys_determine bal n' b c Hnd HF HT) in Hb. lra.
Qed.

Lemma settlements_parties_witness :
  let ps := [person "A" 90 1; person "B" 30 1; person "C" 0 1] in
  exists txs t,
    compute_settlements ps = Ok txs /\ t ∈ txs /\
    From t ∈ map name ps /\ To t ∈ map name ps /\ From t <> To t.
Proof.
  destruct (compute_settlements [person "A" 90 1; person "B" 30 1; person "C" 0 1])
    as [[|t txs]| |] eqn:E; [vm_compute in E; discriminate | | vm_compute in E; discriminate ..].
  exists (t :: txs), t. split; [exact E|].
  assert (Ht : t ∈ t :: txs) by left. split; [exact Ht|].
  apply (settlements_parties _ (t :: txs) t E Ht).
Defined.

Lemma round_half_even_nonneg (x : Q) : 0 <= x -> (0 <= round_half_even x)%Z.
Proof.
  intros Hx. unfold round_half_even.
  assert (Hf : (0 <= Qfloor x)%Z).
  { change 0%Z with (Qfloor 0). apply Qfloor_resp_le, Hx. }
  destruct (Qcompare _ _); [destruct (Z.even _)| |]; lia.
Qed.

Lemma round2_nonneg (x : Q) : 0 <= x -> 0 <= round2 x.
Proof.
  intros Hx. unfold round2.
  assert (H : (0 <= round_half_even (x * 100))%Z)
    by (apply round_half_even_nonneg; nra).
  rewrite Zle_Qle in H. change (inject_Z 0) with 0 in H.
  assert (inject_Z (round_half_even (x * 100)) / 100
          == inject_Z (round_half_even (x * 100)) * (1 # 100)) as -> by field.
  lra.
Qed.

Lemma all_positive_debtors (bal : list (str * Q)) : all_positive (debtors_of bal).
Proof.
  apply Forall_forall. intros [n d] Hin.
  apply debtors_of_elem in Hin as (b & _ & Hb & ->). cbn [snd]. lra.
Qed.

Lemma all_positive_creditors (bal : list (str * Q)) : all_positive (creditors_of bal).
Proof.
  apply Forall_forall. intros [n c] Hin.
  apply creditors_of_elem in Hin as [_ Hc]. exact Hc.
Qed.

Lemma greedy_amounts (fuel : nat) (D C : list (str * Q)) (t : Transaction) :
  all_positive D -> all_positive C -> t ∈ greedy fuel D C ->
  exists a, 0 < a /\ Amount t = round2 a.
Proof.
  revert D C. induction fuel as [|fuel IH]; intros D C HD HC; [inversion 1|].
  destruct D as [|e D]; [inversion 1|]. destruct C as [|f C]; [inversion 1|].
  apply Forall_cons in HD as [He HD]. apply Forall_cons in HC as [Hf HC].
  cbn [greedy]. intros Ht. apply elem_of_cons in Ht as [->|Ht].
  - exists (min (snd e) (snd f)). split; [|reflexivity].
    destruct (min_spec (snd e) (snd f)) as [[_ ->]|[_ ->]]; assumption.
  - apply IH in Ht; [exact Ht | |].
    + apply carry_positive; [apply min_le_l | exact HD].
    + apply carry_positive; [apply min_le_r | exact HC].
Qed.

(** X10: the amount of every transaction is a whole number of cents and
    is not negative. *)
Theorem settlement_amounts (participants : list Participant)
  (txs : list Transaction) (t : Transaction) :
  compute_settlements participants = Ok txs -> t ∈ txs ->
  0 <= Amount t /\ exists z : Z, (0 <= z)%Z /\ Amount t == inject_Z z / 100.
Proof.
  intros H Ht. apply compute_settlements_Ok in H as (bal & _ & ->).
  apply greedy_amounts in Ht as (a & Ha & ->);
    [|apply all_positive_debtors | apply all_positive_creditors].
  split; [apply round2_nonneg; lra|].
  exists (round_half_even (a * 100)). split; [|reflexivity].
  apply round_half_even_nonneg. nra.
Qed.

Lemma settlement_amounts_witness :
  let ps := [person "A" 10 1; person "B" 0 1; person "C" 0 1] in
  exists txs t,
    compute_settlements ps = Ok txs /\ t ∈ txs /\
    0 <= Amount t /\ exists z : Z, (0 <= z)%Z /\ Amount t == inject_Z z / 100.
Proof.
  destruct (compute_settlements [person "A" 10 1; person "B" 0 1; person "C" 0 1])
    as [[|t txs]| |] eqn:E; [vm_compute in E; discriminate | | vm_compute in E; discriminate ..].
  exists (t :: txs), t. split; [exact E|].
  assert (Ht : t ∈ t :: txs) by left. split; [exact Ht|].
  apply (settlement_amounts _ (t :: txs) t E Ht).
Defined.

(** A debt under half a cent is settled by a transaction of amount 0. *)
Example zero_amount_transaction :
  settlements_reduced [person "A" (1 # 250) 1; person "B" 0 1]
  = Ok [{| From := py "B"; To := py "A"; Amount := 0 |}].
Proof. vm_compute. reflexivity. Qed.

(** ** When nothing is to be settled *)

Lemma greedy_nil_inv (D C : list (str * Q)) :
  greedy (length D + length C) D C = [] -> D = [] \/ C = [].
Proof.
  destruct D as [|e D]; [now left|]. destruct C as [|f C]; [now right|].
  cbn [length Nat.add greedy]. discriminate.
Qed.

(** X11: in exact arithmetic, for participants with distinct names and a
    positive total weight, [compute_settlements] returns no transaction
    exactly when every participant's exact balance is zero. *)
Theorem no_settlement_iff_balanced (participants : list Participant) :
  NoDup (map name participants) ->
  0 < total_weight participants ->
  compute_settlements participants = Ok [] <->
  forall p, p ∈ participants -> exact_balance participants p == 0.
Proof.
  intros Hnd Hpos. assert (Hw : ~ total_weight participants == 0) by lra.
  pose proof (balances_of_distinct _ Hnd Hw) as Hbal.
  set (bal := balance_list participants) in *.
  assert (HDC : balanced (debtors_of bal) (creditors_of bal)).
  { apply balanced_debtors_creditors.
    - unfold bal. rewrite balance_list_keys. exact Hnd.
    - apply balance_list_sum, Hw. }
  split.
  - intros H p Hp. apply compute_settlements_Ok in H as (bal' & Hbal' & Hnil).
    rewrite Hbal in Hbal'. injection Hbal' as <-.
    symmetry in Hnil. apply greedy_nil_inv in Hnil.
    assert (HD : debtors_of bal = [] /\ creditors_of bal = []).
    { destruct Hnil as [HD|HC].
      - rewrite HD in HDC. split; [exact HD | apply balanced_nil_l, HDC].
      - rewrite HC in HDC. split; [apply balanced_nil_r, HDC | exact HC]. }
    destruct HD as [HD HC].
    assert (Hentry : (name p, exact_balance participants p) ∈ bal)
      by (apply balance_list_elem; eauto).
    destruct (Qlt_le_dec (exact_balance participants p) 0) as [Hneg|Hnn].
    + assert (Hin : (name p, - exact_balance participants p) ∈ debtors_of bal)
        by (apply debtors_of_elem; eauto).
      rewrite HD in Hin. inversion Hin.
    + destruct (Qlt_le_dec 0 (exact_balance participants p)) as [Hp'|Hnp]; [|lra].
      assert (Hin : (name p, exact_balance participants p) ∈ creditors_of bal)
        by (apply creditors_of_elem; auto).
      rewrite HC in Hin. inversion Hin.
  - intros Hzero. unfold compute_settlements. rewrite Hbal.
    cbn [mbind outcome_bind]. apply settle_nothing. left.
    destruct (debtors_of bal) as [|[n d] l] eqn:E; [reflexivity|]. exfalso.
    assert (Hin : (n, d) ∈ debtors_of bal) by (rewrite E; left).
    apply debtors_of_elem in Hin as (b & Hin & Hb & _).
    apply balance_list_elem in Hin as (p & Hp & _ & ->).
    specialize (Hzero p Hp). lra.
Qed.

Lemma no_settlement_iff_balanced_witness :
  let ps := [person "A" 20 2; person "B" 10 1] in
  NoDup (map name ps) /\ 0 < total_weight ps /\
  (compute_settlements ps = Ok [] <->
   forall p, p ∈ ps -> exact_balance ps p == 0).
Proof.
  assert (Hnd : NoDup (map name [person "A" 20 2; person "B" 10 1]))
    by (refine (bool_decide_unpack _ _); vm_compute; exact I).
  split; [exact Hnd|]. split; [reflexivity|].
  apply (no_settlement_iff_balanced [person "A" 20 2; person "B" 10 1] Hnd).
  reflexivity.
Defined.

(** ** Weights are relative *)

Lemma scale_weight_names (c : Q) (ps : list Participant) :
  map name (map (scale_weight c) ps) = map name ps.
Proof. rewrite map_map. reflexivity. Qed.

Lemma scale_weight_spendings (c : Q) (ps : list Participant) :
  total_spendings (map (scale_weight c) ps) = total_spendings ps.
Proof. unfold total_spendings. rewrite map_map. reflexivity. Qed.

Lemma scale_weight_total (c : Q) (ps : list Participant) :
  total_weight (map (scale_weight c) ps) == c * total_weight ps.
Proof.
  unfold total_weight. rewrite map_map. cbn [weight scale_weight].
  apply sum_scale.
Qed.

Lemma scale_weight_balance (c : Q) (ps : list Participant) (p : Participant) :
  ~ c == 0 -> ~ total_weight ps == 0 ->
  exact_balance (map (scale_weight c) ps) (scale_weight c p) == exact_balance ps p.
Proof.
  intros Hc Hw. unfold exact_balance, exact_fair_share.
  rewrite scale_weight_spendings, scale_weight_total. cbn [amount_spent weight scale_weight].
  field. split; assumption.
Qed.

(** X12: multiplying every weight by the same factor other than 0 leaves
    the balances of [compute_settlements] unchanged: same names in the same
    order, equal amounts. *)
Theorem weights_are_relative (c : Q) (participants : list Participant) :
  NoDup (map name participants) ->
  ~ total_weight participants == 0 -> ~ c == 0 ->
  exists bal bal',
    balances_of participants = Ok bal /\
    balances_of (map (scale_weight c) participants) = Ok bal' /\
    same_balances bal' bal.
Proof.
  intros Hnd Hw Hc.
  assert (Hnd' : NoDup (map name (map (scale_weight c) participants)))
    by (rewrite scale_weight_names; exact Hnd).
  assert (Hw' : ~ total_weight (map (scale_weight c) participants) == 0).
  { rewrite scale_weight_total. intros H. apply Qmult_integral in H. tauto. }
  exists (balance_list participants),
         (balance_list (map (scale_weight c) participants)).
  split; [apply (balances_of_distinct _ Hnd Hw)|].
  split; [apply (balances_of_distinct _ Hnd' Hw')|].
  unfold same_balances, balance_list. rewrite map_map.
  set (ps' := map (scale_weight c) participants).
  assert (Hall : forall p, exact_balance ps' (scale_weight c p)
                           == exact_balance participants p)
    by (intros p; apply scale_weight_balance; assumption).
  apply Forall2_fmap, Forall_Forall2_diag, Forall_forall. intros p _.
  cbn [fst snd name scale_weight]. split; [reflexivity | apply Hall].
Qed.

Lemma weights_are_relative_witness :
  let ps := [person "A" 90 2; person "B" 0 1] in
  NoDup (map name ps) /\ ~ total_weight ps == 0 /\ ~ (1 # 2) == 0 /\
  exists bal bal',
    balances_of ps = Ok bal /\
    balances_of (map (scale_weight (1 # 2)) ps) = Ok bal' /\
    same_balances bal' bal.
Proof.
  assert (Hnd : NoDup (map name [person "A" 90 2; person "B" 0 1]))
    by (refine (bool_decide_unpack _ _); vm_compute; exact I).
  assert (Hw : ~ total_weight [person "A" 90 2; person "B" 0 1] == 0)
    by (intros H; vm_compute in H; discriminate).
  assert (Hc : ~ (1 # 2) == 0) by (intros H; vm_compute in H; discriminate).
  split; [exact Hnd|]. split; [exact Hw|]. split; [exact Hc|].
  apply (weights_are_relative (1 # 2) [person "A" 90 2; person "B" 0 1] Hnd Hw Hc).
Defined.

(** ** The list of the session *)

Lemma apart_snoc (l : list str) (x : str) :
  apart l -> (forall b, b ∈ l -> ~ collides x b) -> apart (l ++ [x]).
Proof.
  induction 1 as [|a l Ha Hl IH]; intros Hx; cbn [app].
  - constructor; [intros b Hb; inversion Hb | constructor].
  - constructor.
    + intros b Hb. apply elem_of_app in Hb as [Hb|Hb]; [now apply Ha|].
      apply list_elem_of_singleton in Hb as ->.
      intros Hc. apply (Hx a); [left | apply collides_sym, Hc].
    + apply IH. intros b Hb. apply Hx. now right.
Qed.

Lemma apart_filter (P : str -> Prop) `{forall x, Decision (P x)} (l : list str) :
  apart l -> apart (filter P l).
Proof.
  induction 1 as [|a l Ha Hl IH]; [constructor|].
  rewrite filter_cons. destruct (decide (P a)); [|exact IH].
  constructor; [|exact IH].
  intros b Hb. apply list_elem_of_filter in Hb as [_ Hb]. now apply Ha.
Qed.

Lemma apart_NoDup (l : list str) : apart l -> NoDup l.
Proof.
  induction 1 as [|a l Ha Hl IH]; constructor; [|exact IH].
  intros Hin. apply (Ha a Hin), collides_refl.
Qed.

Lemma delete_selected_names (selected : str) (ps : list Participant) :
  map name (delete_selected selected ps)
  = filter (fun n => n <> selected) (map name ps).
Proof.
  unfold delete_selected. induction ps as [|p ps IH]; [reflexivity|].
  cbn [map]. rewrite !filter_cons.
  destruct (decide (name p <> selected)); cbn [map]; now rewrite IH.
Qed.

Lemma delete_absent (selected : str) (ps : list Participant) :
  selected ∉ map name ps -> delete_selected selected ps = ps.
Proof.
  unfold delete_selected. induction ps as [|p ps IH]; intros Hn; [reflexivity|].
  cbn [map] in Hn. apply not_elem_of_cons in Hn as [Hne Hn].
  rewrite filter_cons, decide_True by congruence. now rewrite IH.
Qed.

Lemma fresh_name_parts (name : str) (existing : list str) :
  strip name <> [] ->
  trimmed (generate_unique_name name existing) /\
  generate_unique_name name existing <> [] /\
  forall e, e ∈ existing -> ~ collides (generate_unique_name name existing) e.
Proof.
  intros Hnb. assert (Hne : base_name_of name <> [])
    by (intros H; apply Hnb, base_name_of_nil, H).
  split; [apply unique_name_trimmed, Hne|].
  split; [apply unique_name_not_nil, Hne|].
  intros e He. apply (unique_name_fresh name existing e Hne He).
Qed.

(** X13: the form "Add Participant", submitted with a name that is not
    blank, appends one record that carries the amount, the weight and the
    note typed in, under a trimmed name that collides with no recorded
    name: names of which no two collide stay so, hence stay distinct. *)
Theorem add_keeps_names_apart (name_input : str) (amount_input weight_input : Q)
  (note_input : str) (participants : list Participant) :
  strip name_input <> [] ->
  apart (map name participants) ->
  exists p,
    add_participant name_input amount_input weight_input note_input participants
    = participants ++ [p] /\
    name p = generate_unique_name name_input (map name participants) /\
    amount_spent p = amount_input /\ weight p = weight_input /\
    note p = note_input /\
    trimmed (name p) /\
    apart (map name (participants ++ [p])) /\
    NoDup (map name (participants ++ [p])).
Proof.
  intros Hnb Hap.
  destruct (fresh_name_parts name_input (map name participants) Hnb)
    as (Htr & _ & Hfresh).
  destruct name_input as [|c s]; [contradiction|].
  eexists. split; [reflexivity|]. cbn [name amount_spent weight note].
  repeat (split; [reflexivity|]). split; [exact Htr|].
  assert (H : apart (map name (participants ++
             [{| name := generate_unique_name (c :: s) (map name participants);
                 amount_spent := amount_input; weight := weight_input;
                 note := note_input |}]))).
  { rewrite map_app. cbn [map name]. apply apart_snoc; assumption. }
  split; [exact H | apply apart_NoDup, H].
Qed.

Lemma add_keeps_names_apart_witness :
  let ps := [person "Sam" 10 1] in
  strip (py " sam ") <> [] /\ apart (map name ps) /\
  exists p,
    add_participant (py " sam ") 5 1 [] ps = ps ++ [p] /\
    name p = generate_unique_name (py " sam ") (map name ps) /\
    amount_spent p = 5 /\ weight p = 1 /\ note p = [] /\
    trimmed (name p) /\
    apart (map name (ps ++ [p])) /\
    NoDup (map name (ps ++ [p])).
Proof.
  assert (Hnb : strip (py " sam ") <> []) by discriminate.
  assert (Hap : apart (map name [person "Sam" 10 1])).
  { constructor; [intros b Hb; inversion Hb | constructor]. }
  split; [exact Hnb|]. split; [exact Hap|].
  apply (add_keeps_names_apart (py " sam ") 5 1 [] [person "Sam" 10 1] Hnb Hap).
Defined.

(** X14: the button "Delete Selected" keeps, in their order, the records
    whose name differs from the selected one; with distinct names and a
    selected name that is recorded, exactly one record goes. *)
Theorem delete_selected_one (selected : str) (participants : list Participant) :
  NoDup (map name participants) ->
  selected ∈ map name participants ->
  S (length (delete_selected selected participants)) = length participants /\
  (selected ∉ map name (delete_selected selected participants)) /\
  NoDup (map name (delete_selected selected participants)) /\
  forall n, n <> selected -> n ∈ map name participants ->
            n ∈ map name (delete_selected selected participants).
Proof.
  intros Hnd Hin. split; [|split; [|split]].
  - induction participants as [|p ps IH]; [inversion Hin|].
    cbn [map] in Hnd, Hin. apply NoDup_cons in Hnd as [Hp Hnd].
    destruct (decide (name p = selected)) as [Heq|Hne].
    + subst selected.
      assert (delete_selected (name p) (p :: ps) = ps) as ->; [|reflexivity].
      unfold delete_selected. rewrite filter_cons, decide_False by auto.
      apply (delete_absent (name p) ps Hp).
    + assert (delete_selected selected (p :: ps) = p :: delete_selected selected ps)
        as -> by (unfold delete_selected; now rewrite filter_cons, decide_True).
      cbn [length]. f_equal. apply IH; [exact Hnd|].
      apply elem_of_cons in Hin as [Hin|Hin]; [congruence | exact Hin].
  - rewrite delete_selected_names. intros H.
    apply list_elem_of_filter in H as [H _]. now apply H.
  - rewrite delete_selected_names. apply NoDup_filter, Hnd.
  - intros n Hn Hn'. rewrite delete_selected_names.
    apply list_elem_of_filter. auto.
Qed.

Lemma delete_selected_one_witness :
  let ps := [person "A" 1 1; person "B" 2 1; person "C" 3 1] in
  NoDup (map name ps) /\ py "B" ∈ map name ps /\
  S (length (delete_selected (py "B") ps)) = length ps.
Proof.
  assert (Hnd : NoDup (map name [person "A" 1 1; person "B" 2 1; person "C" 3 1]))
    by (refine (bool_decide_unpack _ _); vm_compute; exact I).
  assert (Hin : py "B" ∈ map name [person "A" 1 1; person "B" 2 1; person "C" 3 1])
    by (right; left).
  split; [exact Hnd|]. split; [exact Hin|].
  apply (delete_selected_one (py "B") _ Hnd Hin).
Defined.

(** The properties every action of the session keeps. *)
Lemma session_step_keeps (ps ps' : list Participant) :
  session_step ps ps' ->
  apart (map name ps) /\ Forall (fun p => trimmed (name p) /\ name p <> []) ps ->
  apart (map name ps') /\ Forall (fun p => trimmed (name p) /\ name p <> []) ps'.
Proof.
  intros [name_input a w n participants Hnb|selected participants|participants]
    [Hap Hall].
  - destruct (fresh_name_parts name_input (map name participants) Hnb)
      as (Htr & Hne & Hfresh).
    destruct name_input as [|c s]; [contradiction|]. cbn [add_participant].
    split.
    + rewrite map_app. cbn [map name]. apply apart_snoc; assumption.
    + apply Forall_app. split; [exact Hall|].
      constructor; [cbn [name]; auto | constructor].
  - split.
    + rewrite delete_selected_names. apply apart_filter, Hap.
    + rewrite Forall_forall in Hall. apply Forall_forall. intros p Hp.
      apply list_elem_of_filter in Hp as [_ Hp]. apply Hall, Hp.
  - split; constructor.
Qed.

Lemma session_run_keeps (ps ps' : list Participant) :
  rtc session_step ps ps' ->
  apart (map name ps) /\ Forall (fun p => trimmed (name p) /\ name p <> []) ps ->
  apart (map name ps') /\ Forall (fun p => trimmed (name p) /\ name p <> []) ps'.
Proof.
  induction 1 as [ps|ps ps' ps'' Hstep _ IH]; [auto|].
  intros Hps. apply IH, (session_step_keeps ps ps' Hstep Hps).
Qed.

(** X15: in a session that starts empty and goes through additions under
    names that are not blank, deletions and resets, no two recorded names
    collide up to case and surrounding whitespace; the names are distinct,
    trimmed and not empty. *)
Theorem session_names_apart (participants : list Participant) :
  rtc session_step [] participants ->
  apart (map name participants) /\
  NoDup (map name participants) /\
  forall p, p ∈ participants -> trimmed (name p) /\ name p <> [].
Proof.
  intros Hrun.
  assert (H : apart (map name participants) /\
              Forall (fun p => trimmed (name p) /\ name p <> []) participants).
  { apply (session_run_keeps [] participants Hrun). split; constructor. }
  destruct H as [Hap Hall]. split; [exact Hap|].
  split; [apply apart_NoDup, Hap|].
  apply Forall_forall, Hall.
Qed.

Lemma session_names_apart_witness :
  let ps := [person "Sam" 10 1; person "sam (2)" 5 1] in
  rtc session_step [] ps /\
  apart (map name ps) /\ NoDup (map name ps) /\
  forall p, p ∈ ps -> trimmed (name p) /\ name p <> [].
Proof.
  assert (Hrun : rtc session_step [] [person "Sam" 10 1; person "sam (2)" 5 1]).
  { apply (rtc_l _ _ [person "Sam" 10 1]).
    - exact (step_add (py "Sam") 10 1 [] [] ltac:(discriminate)).
    - apply rtc_once.
      exact (step_add (py " sam") 5 1 [] [person "Sam" 10 1] ltac:(discriminate)). }
  split; [exact Hrun|].
  apply (session_names_apart _ Hrun).
Defined.

(** ** The only exception *)

(** X16: in exact arithmetic, [compute_settlements] raises exactly on a
    list that is not empty and whose weights sum to 0, and what it raises
    is [ZeroDivisionError]; on every other list it returns its
    transactions: no key is missing from the dicts, no index leaves the
    lists and the loop ends. *)
Theorem settlements_raise_exactly_on_zero_weight (participants : list Participant) :
  (compute_settlements participants = Raise ZeroDivisionError <->
   participants <> [] /\ total_weight participants == 0) /\
  ((exists txs, compute_settlements participants = Ok txs) <->
   participants = [] \/ ~ total_weight participants == 0).
Proof.
  destruct (compute_settlements_total participants)
    as [[txs Hok]|(Hne & Hz & Hraise)].
  - assert (Hcase : participants = [] \/ ~ total_weight participants == 0).
    { destruct participants as [|p rest]; [now left|]. right. intros Hz.
      rewrite (settlements_zero_weight p rest Hz) in Hok. discriminate. }
    split; split.
    + rewrite Hok. discriminate.
    + intros [Hne Hz]. destruct Hcase; contradiction.
    + intros _. exact Hcase.
    + intros _. eauto.
  - split; split.
    + intros _. auto.
    + intros _. exact Hraise.
    + intros [txs Hok]. rewrite Hraise in Hok. discriminate.
    + intros [H|H]; contradiction.
Qed.

Example settlements_raise_on_cancelling_weights :
  compute_settlements [person "A" 10 1; person "B" 5 (-1)]
  = Raise ZeroDivisionError.
Proof. reflexivity. Qed.

(** * The code on binary64 floats *)

(** ** Literals and [round] *)

Example literal_one_tenth :
  Binary64.lit (1 # 10) = S754_finite false 7205759403792794 (-56).
Proof. reflexivity. Qed.

Example literal_large :
  Binary64.lit 10000000000000000 = S754_finite false 5000000000000000 1.
Proof. reflexivity. Qed.

Example literal_rounds_to_even :
  Binary64.lit 9007199254740993 = Binary64.lit 9007199254740992 /\
  Binary64.lit 9007199254740995 = Binary64.lit 9007199254740996.
Proof. split; reflexivity. Qed.

Example round2_below_the_tie :
  Binary64.round2 (Binary64.lit (2675 # 1000)) = Binary64.lit (267 # 100).
Proof. reflexivity. Qed.

Example round2_on_the_tie :
  Binary64.round2 (Binary64.lit (125 # 1000)) = Binary64.lit (12 # 100) /\
  Binary64.round2 (Binary64.lit (375 # 1000)) = Binary64.lit (38 # 100).
Proof. split; reflexivity. Qed.

Example round2_keeps_the_sign_of_zero :
  Binary64.round2 (Binary64.lit (- 1 # 1000)) = S754_zero true.
Proof. reflexivity. Qed.


(** ** [compute_fair_shares] *)


(** The float product is what is rounded, not the exact one: with 0 and 1
    spent at weights 1 and 39 the unit share is the float 0.025, a little
    above 1/40, and the first fair share is 0.03, where the exact product
    1/40 rounds to 0.02. *)
Example fair_share_of_the_float_product :
  map Binary64.Fair_Share
    (snd (Binary64.compute_fair_shares
            [Binary64.person "A" 0 1; Binary64.person "B" 1 39]))
  = [Binary64.lit (3 # 100); Binary64.lit (98 # 100)] /\
  map (fun row => Qred (Fair_Share row))
    (snd (compute_fair_shares [person "A" 0 1; person "B" 1 39]))
  = [1 # 50; 49 # 50]%Q.
Proof. split; reflexivity. Qed.

(** X7: on binary64 floats a participant of weight 0 is shown a fair share
    of zero whenever the unit share is finite, and every participant of
    finite weight is shown a fair share of zero when the float sum of the
    weights is not greater than 0: the unit share is then 0.0 and no
    division takes place.  The zero is 0.0 or -0.0. *)
Theorem fair_share_zero_binary64 (participants : list Binary64.Participant)
  (k : nat) (p : Binary64.Participant) (row : Binary64.FairShareRow) :
  participants !! k = Some p ->
  snd (Binary64.compute_fair_shares participants) !! k = Some row ->
  (SFeqb (Binary64.weight p) (S754_zero false) = true /\
   Binary64.finite (snd (fst (Binary64.compute_fair_shares participants))) = true) \/
  (SFltb (S754_zero false)
     (fold_left (SFadd 53 1024) (map Binary64.weight participants) (S754_zero false))
   = false /\
   Binary64.finite (Binary64.weight p) = true) ->
  exists s : bool, Binary64.Fair_Share row = S754_zero s.
Proof.
  intros Hp Hrow Hcase. unfold Binary64.compute_fair_shares in *.
  cbn [fst snd] in *. rewrite list_lookup_fmap, Hp in Hrow.
  injection Hrow as <-. cbn [Binary64.Fair_Share].
  destruct Hcase as [[Hw Hu]|[Htw Hw]].
  - destruct (Binary64.weight p) as [s|[]| |[] m e]; try discriminate.
    destruct (Binary64.normalised_share participants) as [s'| | |s' m' e'];
      try discriminate; eexists; reflexivity.
  - change (Binary64.ltb Binary64.zero (Binary64.total_weight participants) = false)
      in Htw.
    unfold Binary64.normalised_share. rewrite Htw.
    destruct (Binary64.weight p) as [s| | |s m e]; try discriminate;
      eexists; reflexivity.
Qed.

Lemma fair_share_zero_binary64_witness :
  let ps := [Binary64.person "A" 100 1; Binary64.person "B" 20 0] in
  exists row,
    ps !! 1%nat = Some (Binary64.person "B" 20 0) /\
    snd (Binary64.compute_fair_shares ps) !! 1%nat = Some row /\
    exists s : bool, Binary64.Fair_Share row = S754_zero s.
Proof.
  eexists. split; [reflexivity|]. split; [reflexivity|].
  apply (fair_share_zero_binary64
           [Binary64.person "A" 100 1; Binary64.person "B" 20 0] 1
           (Binary64.person "B" 20 0));
    [reflexivity | reflexivity | left; split; reflexivity].
Defined.

(** The guard of the unit share reads the float sum of the weights, which
    need not have the sign of the exact sum: the weights 1, 10^16 + 2,
    -(10^16 + 2) and -1.5 add up to -0.5, their float sum is 0.5, and the
    unit share is 8 and not 0. *)
Example unit_share_guard_on_the_float_sum :
  let weights := [1; 10000000000000002; - 10000000000000002; - (3 # 2)]%Q in
  Binary64.total_weight (map (Binary64.person "P" 1) weights) = Binary64.lit (1 # 2) /\
  snd (fst (Binary64.compute_fair_shares (map (Binary64.person "P" 1) weights)))
  = Binary64.lit 8 /\
  total_weight (map (person "P" 1) weights) == - (1 # 2) /\
  snd (fst (compute_fair_shares (map (person "P" 1) weights))) = 0.
Proof. repeat split; reflexivity. Qed.

(** The displayed share is the rounded float product: one participant who
    spent 10^15 at weight 49 is shown 999999999999999.875. *)
Example displayed_share_on_floats :
  map Binary64.Fair_Share
    (snd (Binary64.compute_fair_shares [Binary64.person "A" 1000000000000000 49]))
  = [Binary64.lit (7999999999999999 # 8)].
Proof. reflexivity. Qed.

(** ** [compute_settlements] *)

(** The scenarios of the specification come out the same on floats. *)
Example scenario_1_binary64 :
  Binary64.compute_settlements [Binary64.person "A" 100 1; Binary64.person "B" 0 1]
  = Ok [{| Binary64.From := py "B"; Binary64.To := py "A";
           Binary64.Amount := Binary64.lit 50 |}].
Proof. reflexivity. Qed.

Example scenario_2_binary64 :
  Binary64.compute_settlements [Binary64.person "A" 90 2; Binary64.person "B" 0 1]
  = Ok [{| Binary64.From := py "B"; Binary64.To := py "A";
           Binary64.Amount := Binary64.lit 30 |}].
Proof. reflexivity. Qed.

(** Past 2^53 the floats are more than a cent apart and the settlement is
    exact no longer: with 10^16 and 1 spent at equal weights, B owes
    4999999999999999.5 and is told to pay 4999999999999999. *)
Example settlement_on_large_floats :
  Binary64.compute_settlements
    [Binary64.person "A" 10000000000000000 1; Binary64.person "B" 1 1]
  = Ok [{| Binary64.From := py "B"; Binary64.To := py "A";
           Binary64.Amount := Binary64.lit 4999999999999999 |}] /\
  settlements_reduced [person "A" 10000000000000000 1; person "B" 1 1]
  = Ok [{| From := py "B"; To := py "A"; Amount := 9999999999999999 # 2 |}].
Proof. split; reflexivity. Qed.

(** Balances that are zero in exact arithmetic can come out of the float
    operations as tiny debts and credits.  With 0.69 and 0.92 spent at
    weights 3 and 4 one transaction of 0.0 is emitted.  With 0.1, 0.2 and
    0.3 spent at weights 1, 2 and 3 the three float balances are negative:
    there are three debtors and no creditor, and nothing is emitted. *)
Example settlement_of_float_residues :
  Binary64.compute_settlements
    [Binary64.person "A" (69 # 100) 3; Binary64.person "B" (92 # 100) 4]
  = Ok [{| Binary64.From := py "A"; Binary64.To := py "B";
           Binary64.Amount := S754_zero false |}] /\
  compute_settlements [person "A" (69 # 100) 3; person "B" (92 # 100) 4] = Ok [] /\
  let ps := [Binary64.person "A" (1 # 10) 1; Binary64.person "B" (2 # 10) 2;
             Binary64.person "C" (3 # 10) 3] in
  Binary64.compute_settlements ps = Ok [] /\
  exists balances,
    Binary64.balances_of ps = Ok balances /\
    map fst (Binary64.debtors_of balances) = [py "A"; py "B"; py "C"] /\
    Binary64.creditors_of balances = [].
Proof.
  split; [reflexivity|]. split; [reflexivity|]. split; [reflexivity|].
  eexists. split; [reflexivity|]. split; reflexivity.
Qed.

(** Float weights can cancel where the exact ones do not: 10^16, 1 and
    -10^16 add up to 0.0 and the division is refused. *)
Example settlement_of_cancelling_float_weights :
  Binary64.compute_settlements
    [Binary64.person "A" 1 10000000000000000; Binary64.person "B" 1 1;
     Binary64.person "C" 1 (- 10000000000000000)]
  = Raise ZeroDivisionError /\
  exists txs,
    compute_settlements
      [person "A" 1 10000000000000000; person "B" 1 1;
       person "C" 1 (- 10000000000000000)]
    = Ok txs.
Proof. split; [reflexivity | eexists; reflexivity]. Qed.
